(** * yatte: a shallow embedding of [dist/yatte-browser.js]

    The development follows the source file top to bottom: the JavaScript
    values the library manipulates, the string primitives it calls, the
    settings object, [dedent], [explicitTransformation], [yatte.do],
    [yatte.if] and [yatte.loop]; the theorems about them come last. *)

From Stdlib Require Import ZArith Ascii Lia DecimalString.
From Stdlib Require String.
From stdpp Require Import base option list strings gmap sorting.

Set Warnings "-register-all".

(** ** JavaScript strings

    A string is its sequence of code units, and the embedding has the code
    units from 0 to 255.  Among them the class [\s] and [trim] take the six
    ASCII whitespace characters and the no-break space (160).  The two case
    mappings are exact except for [toUpperCase] of the micro sign (181) and
    of y with diaeresis (255), whose capitals are not code units of the
    embedding; both are left as they are. *)

Abbreviation jsstring := (list ascii).

Definition str (s : string) : jsstring := String.list_ascii_of_string s.

Definition LF : ascii := "010"%char.
Definition TAB : ascii := "009"%char.
Definition SPACE : ascii := " "%char.
Definition BACKSLASH : ascii := "\"%char.
Definition DQUOTE : ascii := "034"%char.
Definition SQUOTE : ascii := "039"%char.

(** The class [\s] of the regular expressions in the source. *)
Definition is_ws (c : ascii) : bool :=
  match c with
  | "009" | "010" | "011" | "012" | "013" | " " | "160" => true
  | _ => false
  end%char.

(** The class [[\n \t]] whose complement appears in [dedent]. *)
Definition is_indent_char (c : ascii) : bool :=
  Ascii.eqb c LF || Ascii.eqb c SPACE || Ascii.eqb c TAB.

(** [s.startsWith('\n')] *)
Definition startsWith_LF (s : jsstring) : bool :=
  match s with
  | c :: _ => Ascii.eqb c LF
  | [] => false
  end.

(** [s.startsWith('\\')] *)
Definition startsWith_backslash (s : jsstring) : bool :=
  match s with
  | c :: _ => Ascii.eqb c BACKSLASH
  | [] => false
  end.

(** [s.search(/[^\n \t]|$/)]: the alternative [$] always matches, so the
    search never fails. *)
Fixpoint search_indent_end (s : jsstring) : nat :=
  match s with
  | c :: r => if is_indent_char c then S (search_indent_end r) else 0
  | [] => 0
  end.

(** [s.search(/\S|$/)] *)
Fixpoint search_non_ws (s : jsstring) : nat :=
  match s with
  | c :: r => if is_ws c then S (search_non_ws r) else 0
  | [] => 0
  end.

(** The lookahead [(?=\S+$)]: the rest of the string is a non-empty run of
    non-whitespace. *)
Definition non_ws_run (r : jsstring) : bool :=
  match r with
  | [] => false
  | _ => forallb (fun c => negb (is_ws c)) r
  end.

(** [s.search(/\s(?=\S+$)/)]: leftmost match, [-1] when there is none. *)
Fixpoint search_token_sep (s : jsstring) : option nat :=
  match s with
  | [] => None
  | c :: r => if is_ws c && non_ws_run r then Some 0 else S <$> search_token_sep r
  end.

Definition search_index (o : option nat) : Z :=
  match o with
  | Some i => Z.of_nat i
  | None => (-1)%Z
  end.

(** [String.prototype.substr]: a negative start counts from the end, the
    start is clamped to the string, a negative length gives the empty string. *)
Definition substr_start (s : jsstring) (start : Z) : nat :=
  Z.to_nat (if (start <? 0)%Z
            then Z.max (Z.of_nat (length s) + start) 0
            else Z.min start (Z.of_nat (length s))).

Definition substr_from (s : jsstring) (start : Z) : jsstring :=
  drop (substr_start s start) s.

Definition substr (s : jsstring) (start len : Z) : jsstring :=
  take (Z.to_nat len) (drop (substr_start s start) s).

(** [s.substring(0, e)] *)
Definition substring0 (s : jsstring) (e : Z) : jsstring :=
  take (Z.to_nat e) s.

(** [s.split('\n')] *)
Fixpoint split_LF (s : jsstring) : list jsstring :=
  match s with
  | [] => [[]]
  | c :: r =>
      if Ascii.eqb c LF then [] :: split_LF r
      else match split_LF r with
           | l :: ls => (c :: l) :: ls
           | [] => [[c]]
           end
  end.

(** [pieces.join(sep)] on an array of strings. *)
Fixpoint join (sep : jsstring) (pieces : list jsstring) : jsstring :=
  match pieces with
  | [] => []
  | [p] => p
  | p :: ps => p ++ sep ++ join sep ps
  end.

(** [s.repeat(n)] *)
Fixpoint repeat_str (s : jsstring) (n : nat) : jsstring :=
  match n with
  | O => []
  | S n' => s ++ repeat_str s n'
  end.

(** [s.replace(/c/g, rep)] for a one-character pattern and a replacement
    without [$] patterns. *)
Definition replace_char (c : ascii) (rep : jsstring) (s : jsstring) : jsstring :=
  mjoin ((fun x => if Ascii.eqb x c then rep else [x]) <$> s).

(** [toUpperCase] of one code unit: the letters a to z and the Latin-1
    letters from 224 to 254 (but the division sign, 247) lose 32; the sharp
    s (223) becomes two capitals. *)
Definition upper_char (c : ascii) : jsstring :=
  let n := nat_of_ascii c in
  if (97 <=? n)%nat && (n <=? 122)%nat then [ascii_of_nat (n - 32)]
  else if (224 <=? n)%nat && (n <=? 254)%nat && negb (n =? 247)%nat
       then [ascii_of_nat (n - 32)]
  else if (n =? 223)%nat then str "SS"
  else [c].

(** [toLowerCase] of one code unit: the letters A to Z and the Latin-1
    letters from 192 to 222 (but the multiplication sign, 215) gain 32. *)
Definition lower_char (c : ascii) : ascii :=
  let n := nat_of_ascii c in
  if (65 <=? n)%nat && (n <=? 90)%nat then ascii_of_nat (n + 32)
  else if (192 <=? n)%nat && (n <=? 222)%nat && negb (n =? 215)%nat
       then ascii_of_nat (n + 32)
  else c.

Fixpoint drop_ws (s : jsstring) : jsstring :=
  match s with
  | c :: r => if is_ws c then drop_ws r else s
  | [] => []
  end.

(** [s.trim()] *)
Definition trim (s : jsstring) : jsstring :=
  reverse (drop_ws (reverse (drop_ws s))).

(** ** JavaScript values

    Numbers are the safe integers (at most 2^53 - 1 in absolute value), so
    that [num_to_string] writes them as JavaScript does; function values are
    kept apart (see [jsarg] below), so a [value] is plain data.  An object
    is the list of its own enumerable properties in the order in which they
    were created, with distinct keys; [own_entries] below puts them in the
    order of [Object.keys]. *)

Inductive value : Type :=
| VUndef
| VNull
| VBool (b : bool)
| VNum (n : Z)
| VStr (s : jsstring)
| VArr (elems : list value)
| VObj (props : list (jsstring * value)).

Definition num_to_string (n : Z) : jsstring :=
  str (NilZero.string_of_int (Z.to_int n)).

(** ToString, as applied by [+] with a string operand and by [join]. *)
Fixpoint to_string (v : value) : jsstring :=
  match v with
  | VUndef => str "undefined"
  | VNull => str "null"
  | VBool true => str "true"
  | VBool false => str "false"
  | VNum n => num_to_string n
  | VStr s => s
  | VArr elems =>
      join (str ",")
        (map (fun x => match x with
                       | VUndef | VNull => []
                       | _ => to_string x
                       end) elems)
  | VObj _ => str "[object Object]"
  end.

(** One element of [Array.prototype.join]: [null] and [undefined] give the
    empty string. *)
Definition join_elem (v : value) : jsstring :=
  match v with
  | VUndef | VNull => []
  | _ => to_string v
  end.

(** [arr.join(sep)] *)
Definition array_join (sep : jsstring) (arr : list value) : jsstring :=
  join sep (join_elem <$> arr).

(** ToBoolean *)
Definition to_boolean (v : value) : bool :=
  match v with
  | VUndef | VNull => false
  | VBool b => b
  | VNum n => negb (n =? 0)%Z
  | VStr s => match s with [] => false | _ => true end
  | VArr _ | VObj _ => true
  end.

(** ** Exceptions *)

Inductive exn : Type :=
| TypeError
| Thrown (v : value).

Inductive result (A : Type) : Type :=
| Ok (a : A)
| Throw (e : exn).
Arguments Ok {A} a.
Arguments Throw {A} e.

Global Instance result_ret : MRet result := fun A a => Ok a.
Global Instance result_bind : MBind result := fun A B f m =>
  match m with
  | Ok a => f a
  | Throw e => Throw e
  end.

(** A method of [String.prototype] called on [v]: only a string has it; on
    [null] and [undefined] the property access throws, on other values the
    call of [undefined] does. *)
Definition as_string (v : value) : result jsstring :=
  match v with
  | VStr s => Ok s
  | _ => Throw TypeError
  end.

(** [arr[i]] on an array: [undefined] out of range. *)
Definition index (arr : list value) (i : nat) : value :=
  default VUndef (arr !! i).

Fixpoint assoc (k : jsstring) (props : list (jsstring * value)) : option value :=
  match props with
  | [] => None
  | (k', x) :: rest => if decide (k = k') then Some x else assoc k rest
  end.

(** [v[0]] *)
Definition get0 (v : value) : result value :=
  match v with
  | VUndef | VNull => Throw TypeError
  | VBool _ | VNum _ => Ok VUndef
  | VStr s => Ok (match s with c :: _ => VStr [c] | [] => VUndef end)
  | VArr elems => Ok (index elems 0)
  | VObj props => Ok (default VUndef (assoc (str "0") props))
  end.

(** [v === '\n'] *)
Definition is_LF_string (v : value) : bool :=
  match v with
  | VStr [c] => Ascii.eqb c LF
  | _ => false
  end.

(** [v === true] *)
Definition is_true (v : value) : bool :=
  match v with
  | VBool true => true
  | _ => false
  end.

(** ** The settings object [yatte.settings]

    [escape] is the module-level constant of the source: the [textarea]
    element of the page, or [null].  The element is the browser's: assigning
    [textContent] stores the text ([null] and [undefined] give the empty
    text) and reading [innerHTML] serialises it, writing [&], [<], [>] and
    the no-break space as character references. *)

Record textarea : Type := { textContent : jsstring }.

Definition set_textContent (html : value) : textarea :=
  {| textContent := match html with
                    | VUndef | VNull => []
                    | _ => to_string html
                    end |}.

Definition serialize_char (c : ascii) : jsstring :=
  if Ascii.eqb c "&"%char then str "&amp;"
  else if Ascii.eqb c "<"%char then str "&lt;"
  else if Ascii.eqb c ">"%char then str "&gt;"
  else if Ascii.eqb c "160"%char then str "&nbsp;"
  else [c].

Definition innerHTML (t : textarea) : jsstring :=
  mjoin (serialize_char <$> textContent t).

(** [yatte.settings.functions] *)
Record settings_functions : Type := {
  escapeHTMLFunc : value -> result value
}.

(** [yatte.settings.format]: an entry of [transform] reads the functions
    through [yatte.settings] when it is called, so it takes them as an
    argument.  [transform] holds the own properties of the registry object;
    what the object inherits is in [Object_prototype] below. *)
Record settings_format : Type := {
  indentation : bool;
  transform : gmap jsstring (settings_functions -> value -> result value)
}.

Record settings : Type := {
  functions : settings_functions;
  format : settings_format
}.

(** The default [escapeHTMLFunc], over the constant [escape]. *)
Definition default_escapeHTMLFunc (escape : option textarea) (html : value) : result value :=
  match escape with
  | None => Throw TypeError
  | Some _ =>
      let escape := set_textContent html in
      Ok (VStr (replace_char SQUOTE (str "&#39;")
                 (replace_char DQUOTE (str "&#34;") (innerHTML escape))))
  end.

Definition transform_escape (fns : settings_functions) (v : value) : result value :=
  escapeHTMLFunc fns v.

Definition transform_U (_ : settings_functions) (v : value) : result value :=
  s ← as_string v; Ok (VStr (mjoin (upper_char <$> s))).

Definition transform_L (_ : settings_functions) (v : value) : result value :=
  s ← as_string v; Ok (VStr (lower_char <$> s)).

Definition transform_T (_ : settings_functions) (v : value) : result value :=
  s ← as_string v; Ok (VStr (trim s)).

Definition default_transform : gmap jsstring (settings_functions -> value -> result value) :=
  <[str "$" := transform_escape]>
    (<[str "U" := transform_U]>
      (<[str "L" := transform_L]>
        (<[str "T" := transform_T]> ∅))).

(** The object as the source file leaves it after loading. *)
Definition yatte_settings (escape : option textarea) : settings :=
  {| functions := {| escapeHTMLFunc := default_escapeHTMLFunc escape |};
     format := {| indentation := true; transform := default_transform |} |}.

(** ** [dedent] *)

Record dedented : Type := {
  result_strings : list value;
  result_values : list value
}.

(** [text.split('\n').map((s, k) => (k === 0 ? s : s.substr(indent)))] *)
Definition dedent_lines (indent : Z) (text : jsstring) : list jsstring :=
  imap (fun k s => match k with
                   | O => s
                   | S _ => substr_from s indent
                   end) (split_LF text).

(** The branch of [dedent] for a value that starts with a line break. *)
Definition reindent (split : list jsstring) (v : jsstring) : jsstring :=
  let innerIndentation := default [] (last split) in
  let innerIndentation :=
    substr innerIndentation 0 (Z.of_nat (search_non_ws innerIndentation)) in
  substr_from
    (join [LF] ((fun s => innerIndentation ++ s) <$> split_LF v))
    (Z.of_nat (length innerIndentation) * 2 + 1).

(** The block under [typeof values[i] !== 'undefined']: what is pushed on
    [result.values] for the value [v]. *)
Definition dedent_value (split : list jsstring) (pushed : list value) (v : value) :
    result (list value) :=
  match v with
  | VUndef => Ok pushed
  | _ =>
      c ← get0 v;
      if is_LF_string c then
        s ← as_string v;
        Ok (pushed ++ [VStr (reindent split s)])
      else Ok (pushed ++ [v])
  end.

(** The callback of [strings.forEach], from index [i] on. *)
Fixpoint dedent_forEach (indent : Z) (values : list value) (i : nat)
    (texts : list value) (res : dedented) : result dedented :=
  match texts with
  | [] => Ok res
  | text :: rest =>
      text ← as_string text;
      let split := dedent_lines indent text in
      vs ← dedent_value split (result_values res) (index values i);
      dedent_forEach indent values (S i) rest
        {| result_strings := result_strings res ++ [VStr (join [LF] split)];
           result_values := vs |}
  end.

Definition dedent (strings values : list value) : result dedented :=
  s0 ← as_string (index strings 0);
  if startsWith_LF s0 then
    let indent := (Z.of_nat (search_indent_end s0) - 1)%Z in
    dedent_forEach indent values 0 strings
      {| result_strings := []; result_values := [] |}
  else Ok {| result_strings := strings; result_values := values |}.

(** ** [explicitTransformation] *)

(** What [suffixes[lastToken]] can be: a function, or an object (which is
    truthy and not a function). *)
Inductive member : Type :=
| MFunction (f : settings_functions -> value -> result value)
| MObject.

Definition is_primitive (v : value) : bool :=
  match v with
  | VArr _ | VObj _ => false
  | _ => true
  end.

Definition object_Object : value := VStr (str "[object Object]").

(** [suffixes.toString()], the call that [toLocaleString] makes and the last
    step of turning the registry object into a string: an own property
    [toString] of the registry is found first and called without arguments. *)
Definition registry_toString (suffixes : gmap jsstring (settings_functions -> value -> result value))
    (fns : settings_functions) : result value :=
  match suffixes !! str "toString" with
  | Some f => f fns VUndef
  | None => Ok object_Object
  end.

(** The functions of [Object.prototype], called as [suffixes[name](value)].
    A value is only ever added to a string afterwards, and the results are
    written with that in mind: the wrapper object that [Object(value)] makes
    of a primitive is written as the primitive, the registry object that
    [valueOf] returns as the primitive that [+] makes of it, and the native
    accessor functions that [__lookupGetter__] and [__lookupSetter__] find
    for the key [__proto__] as the text V8 prints for them. *)
Definition Object_constructor (_ : settings_functions) (v : value) : result value :=
  match v with
  | VUndef | VNull => Ok (VObj [])
  | _ => Ok v
  end.

Definition Object_valueOf (suffixes : gmap jsstring (settings_functions -> value -> result value))
    (fns : settings_functions) (_ : value) : result value :=
  r ← registry_toString suffixes fns;
  if is_primitive r then Ok r else Throw TypeError.

Definition Object_hasOwnProperty
    (suffixes : gmap jsstring (settings_functions -> value -> result value))
    (_ : settings_functions) (v : value) : result value :=
  Ok (VBool (bool_decide (is_Some (suffixes !! to_string v)))).

Definition Object_lookupAccessor (kind : string)
    (suffixes : gmap jsstring (settings_functions -> value -> result value))
    (_ : settings_functions) (v : value) : result value :=
  match suffixes !! to_string v with
  | Some _ => Ok VUndef
  | None =>
      if bool_decide (to_string v = str "__proto__")
      then Ok (VStr (str "function " ++ str kind ++ str " __proto__() { [native code] }"))
      else Ok VUndef
  end.

(** The properties of [Object.prototype], which the registry object
    inherits; [__proto__] is an accessor that gives [Object.prototype]
    itself. *)
Definition Object_prototype
    (suffixes : gmap jsstring (settings_functions -> value -> result value)) :
    gmap jsstring member :=
  list_to_map
    [ (str "constructor", MFunction Object_constructor);
      (str "__defineGetter__", MFunction (fun _ _ => Throw TypeError));
      (str "__defineSetter__", MFunction (fun _ _ => Throw TypeError));
      (str "hasOwnProperty", MFunction (Object_hasOwnProperty suffixes));
      (str "__lookupGetter__", MFunction (Object_lookupAccessor "get" suffixes));
      (str "__lookupSetter__", MFunction (Object_lookupAccessor "set" suffixes));
      (str "isPrototypeOf", MFunction (fun _ _ => Ok (VBool false)));
      (str "propertyIsEnumerable", MFunction (Object_hasOwnProperty suffixes));
      (str "toString", MFunction (fun _ _ => Ok object_Object));
      (str "valueOf", MFunction (Object_valueOf suffixes));
      (str "__proto__", MObject);
      (str "toLocaleString", MFunction (fun fns _ => registry_toString suffixes fns)) ].

(** [suffixes[name]]: an own property, or else an inherited one. *)
Definition get_member (suffixes : gmap jsstring (settings_functions -> value -> result value))
    (name : jsstring) : option member :=
  match suffixes !! name with
  | Some f => Some (MFunction f)
  | None => Object_prototype suffixes !! name
  end.

Definition explicitTransformation (cfg : settings) (str value : value) : result jsstring :=
  str ← as_string str;
  let suffixes := transform (format cfg) in
  let lastToken := substr_from str (search_index (search_token_sep str) + 1) in
  '(str, value) ←
    (if (0 <? length lastToken)%nat then
       if negb (startsWith_backslash lastToken) then
         match get_member suffixes lastToken with
         | Some (MFunction f) =>
             let str := substr str 0 (Z.of_nat (length str) - Z.of_nat (length lastToken)) in
             value ← f (functions cfg) value;
             Ok (str, value)
         | _ => Ok (str, value)
         end
       else
         match get_member suffixes lastToken with
         | Some _ =>
             Ok (substr str 0 (Z.of_nat (length str) - Z.of_nat (length lastToken) - 1)
                   ++ lastToken, value)
         | None => Ok (str, value)
         end
     else Ok (str, value));
  Ok (str ++ to_string value).

(** ** [yatte.do] *)

(** [values.reduce((old, value, i) => old + explicitTransformation(strings[i], value), '')],
    from index [i] on. *)
Fixpoint reduce_values (cfg : settings) (strings : list value) (i : nat)
    (values : list value) (old : jsstring) : result jsstring :=
  match values with
  | [] => Ok old
  | value :: rest =>
      piece ← explicitTransformation cfg (index strings i) value;
      reduce_values cfg strings (S i) rest (old ++ piece)
  end.

(** The first statement of [yatte.do]: the strings and values that the
    [return] works on. *)
Definition do_arguments (cfg : settings) (strings : value) (values : list value) :
    result (list value * list value) :=
  match strings with
  | VArr arr =>
      if indentation (format cfg) then
        result ← dedent arr values;
        Ok (result_strings result, result_values result)
      else Ok (arr, values)
  | _ => Ok ([strings], values)
  end.

Definition yatte_do (cfg : settings) (strings : value) (values : list value) : result jsstring :=
  '(strings, values) ← do_arguments cfg strings values;
  old ← reduce_values cfg strings 0 values [];
  Ok (old ++ to_string (index strings (length strings - 1))).

(** A call [yatte.do(..._)] with the argument list spread. *)
Definition yatte_do_spread (cfg : settings) (args : list value) : result jsstring :=
  match args with
  | [] => yatte_do cfg VUndef []
  | strings :: values => yatte_do cfg strings values
  end.

Definition nl (s : string) : jsstring := LF :: str s.

(** ** [yatte.if]

    The source builds the chain out of closures.  Only two shapes of object
    ever arise: the one [ifFallThrough(result)()] returns, which holds the
    result of the branch that matched, and the literal
    [{ elseIf: yatte.if, else: yatte.do }].  [chain] names the two, and
    [chain_elseIf] and [chain_else] are the calls of the two members. *)

Inductive chain : Type :=
| Resolved (result : jsstring)
| Pending.

(** [ifFallThrough(result)()] *)
Definition ifFallThrough (result : jsstring) : chain := Resolved result.

(** [yatte.if(condition)(..._)] *)
Definition yatte_if (cfg : settings) (condition : value) (args : list value) : result chain :=
  if to_boolean condition then
    result ← yatte_do_spread cfg args;
    Ok (ifFallThrough result)
  else Ok Pending.

(** [c.elseIf(condition)(..._)] *)
Definition chain_elseIf (cfg : settings) (c : chain) (condition : value)
    (args : list value) : result chain :=
  match c with
  | Resolved result => Ok (ifFallThrough result)
  | Pending => yatte_if cfg condition args
  end.

(** [c.else(..._)] *)
Definition chain_else (cfg : settings) (c : chain) (args : list value) : result jsstring :=
  match c with
  | Resolved result => Ok result
  | Pending => yatte_do_spread cfg args
  end.

(** A run of [.elseIf(condition)(..._)] calls, left to right. *)
Fixpoint chain_elseIfs (cfg : settings) (c : chain)
    (branches : list (value * list value)) : result chain :=
  match branches with
  | [] => Ok c
  | (condition, args) :: rest =>
      c' ← chain_elseIf cfg c condition args;
      chain_elseIfs cfg c' rest
  end.

(** ** [yatte.loop] *)

(** The value of a string of decimal digits, after [acc]. *)
Fixpoint digits_value (acc : N) (s : jsstring) : option N :=
  match s with
  | [] => Some acc
  | c :: r =>
      let n := nat_of_ascii c in
      if (48 <=? n)%nat && (n <=? 57)%nat
      then digits_value (10 * acc + N.of_nat (n - 48)) r
      else None
  end.

(** An array index: the key is the canonical decimal form of an integer
    from 0 to 2^32 - 2. *)
Definition array_index (key : jsstring) : option N :=
  match key with
  | [] => None
  | _ =>
      match digits_value 0 key with
      | Some i =>
          if (i <? 4294967295)%N && bool_decide (num_to_string (Z.of_N i) = key)
          then Some i else None
      | None => None
      end
  end.

Fixpoint insert_by_index (x : N * (jsstring * value)) (l : list (N * (jsstring * value))) :
    list (N * (jsstring * value)) :=
  match l with
  | [] => [x]
  | y :: l' => if (x.1 <=? y.1)%N then x :: y :: l' else y :: insert_by_index x l'
  end.

Definition sort_by_index (l : list (N * (jsstring * value))) : list (N * (jsstring * value)) :=
  foldr insert_by_index [] l.

(** The own properties in the order of [Object.keys]: those whose key is an
    array index, by ascending index, and then the others in the order of
    their creation. *)
Definition own_entries (props : list (jsstring * value)) : list (jsstring * value) :=
  (snd <$> sort_by_index (omap (fun p => (fun i => (i, p)) <$> array_index p.1) props))
  ++ filter (fun p => array_index p.1 = None) props.

(** [Object.keys(object).map((key) => ({ key, value: object[key] }))]: the
    pairs are written (key, value).  Arrays are dense. *)
Definition key_value_pairs (object : value) : result (list (value * value)) :=
  match object with
  | VUndef | VNull => Throw TypeError
  | VBool _ | VNum _ => Ok []
  | VStr s => Ok (imap (fun i c => (VStr (num_to_string (Z.of_nat i)), VStr [c])) s)
  | VArr elems => Ok (imap (fun i x => (VStr (num_to_string (Z.of_nat i)), x)) elems)
  | VObj props => Ok ((fun p => (VStr p.1, p.2)) <$> own_entries props)
  end.

(** [mapped.map((str, i) => ...)]: the removal of the line break that
    [yatte.do] leaves at the head of an indented template. *)
Definition strip_linebreak (i : nat) (str : value) : value :=
  match i, str with
  | S _, VStr (c :: rest) => if Ascii.eqb c LF then VStr rest else str
  | _, _ => str
  end.

Section Loop.

(** The state the caller's functions read and write. *)
Context {St : Type}.

(** A function value: called with an argument list in a state, it returns
    a value and a new state, or throws. *)
Definition jsfun : Type := list value -> St -> result (value * St).

(** An argument that the source tests with [typeof x === 'function']. *)
Inductive jsarg : Type :=
| AFun (f : jsfun)
| AVal (v : value).

(** The first [switch]: [collectionLength] and [collection]. *)
Definition classify (object : jsarg) : result (nat * list (value * value)) :=
  match object with
  | AFun _ => Ok (1, [])
  | AVal (VNum n) => Ok (Z.abs_nat n, [])
  | AVal v =>
      collection ← key_value_pairs v;
      Ok (length collection, collection)
  end.

(** [while (object() === true) { mapped.push(strings()); }]; [None] when
    the fuel does not suffice. *)
Fixpoint while_true (fuel : nat) (object strings : jsfun)
    (mapped : list value) (st : St) : option (result (list value * St)) :=
  match fuel with
  | O => None
  | S fuel' =>
      match object [] st with
      | Throw e => Some (Throw e)
      | Ok (c, st1) =>
          if is_true c then
            match strings [] st1 with
            | Throw e => Some (Throw e)
            | Ok (r, st2) => while_true fuel' object strings (mapped ++ [r]) st2
            end
          else Some (Ok (mapped, st1))
      end
  end.

(** Calls of [strings], one per argument list, with the results pushed on
    [mapped]: the [for] loop and [collection.map]. *)
Fixpoint call_each (strings : jsfun) (argss : list (list value))
    (mapped : list value) (st : St) : result (list value * St) :=
  match argss with
  | [] => Ok (mapped, st)
  | args :: rest =>
      match strings args st with
      | Throw e => Throw e
      | Ok (r, st') => call_each strings rest (mapped ++ [r]) st'
      end
  end.

(** The end of the function branch. *)
Definition join_mapped (joinChar : jsstring) (mapped : list value) : jsstring :=
  array_join joinChar (imap strip_linebreak mapped).

(** The end of the body, for a [strings] that is not a function. *)
Definition repeat_joined (cfg : settings) (joinChar : jsstring) (collectionLength : nat)
    (strings : value) (values : list value) : result jsstring :=
  strings ← match strings with
            | VArr _ => s ← yatte_do cfg strings values; Ok (VStr s)
            | _ => Ok strings
            end;
  let result := repeat_str (to_string strings ++ joinChar) collectionLength in
  Ok (substring0 result (Z.of_nat (length result) - Z.of_nat (length joinChar))).

(** [yatte.loop(object, joinChar)(strings, ...values)]; [joinChar] is
    [None] when the caller leaves it out. *)
Definition yatte_loop (fuel : nat) (cfg : settings) (object : jsarg)
    (joinChar : option jsstring) (strings : jsarg) (values : list value)
    (st : St) : option (result (jsstring * St)) :=
  let joinChar := default [LF] joinChar in
  match classify object with
  | Throw e => Some (Throw e)
  | Ok (collectionLength, collection) =>
      match strings with
      | AFun body =>
          let mapped :=
            match object with
            | AFun predicate => while_true fuel predicate body [] st
            | AVal (VNum _) =>
                Some (call_each body
                        ((fun i => [VNum (Z.of_nat i); VNum (Z.of_nat i)])
                           <$> seq 0 collectionLength) [] st)
            | AVal _ =>
                Some (call_each body ((fun item => [item.2; item.1]) <$> collection) [] st)
            end in
          match mapped with
          | None => None
          | Some (Throw e) => Some (Throw e)
          | Some (Ok (mapped, st')) => Some (Ok (join_mapped joinChar mapped, st'))
          end
      | AVal v =>
          match repeat_joined cfg joinChar collectionLength v values with
          | Throw e => Some (Throw e)
          | Ok s => Some (Ok (s, st))
          end
      end
  end.

End Loop.

Arguments jsfun St : clear implicits.
Arguments jsarg St : clear implicits.

(** * Vocabulary of the statements *)

(** A function that neither reads nor writes the state and does not throw. *)
Definition pure_fun {St : Type} (f : list value -> value) : jsfun St :=
  fun args st => Ok (f args, st).

(** [animal => `This is a ${animal}`] *)
Definition this_is_a : list value -> value :=
  fun args => VStr (str "This is a " ++ to_string (index args 0)).

(** [(value, key) => `${key}: ${value}`] *)
Definition key_colon_value : list value -> value :=
  fun args => VStr (to_string (index args 1) ++ str ": " ++ to_string (index args 0)).

(** What the first claim calls removing the base indentation: every line
    but the first loses its first [k] characters. *)
Definition strip_indent (k : nat) (lines : list jsstring) : list jsstring :=
  match lines with
  | [] => []
  | l :: ls => l :: (drop k <$> ls)
  end.



(** A token may begin after [pre]: [pre] is empty or ends with whitespace. *)
Definition token_start (pre : jsstring) : bool :=
  match last pre with
  | None => true
  | Some c => is_ws c
  end.

(** A token: a non-empty run of characters other than whitespace. *)
Definition is_token (tok : jsstring) : bool := non_ws_run tok.

(** The character references an escaped value is made of. *)
Definition escaped_char (c : ascii) : jsstring :=
  if Ascii.eqb c DQUOTE then str "&#34;"
  else if Ascii.eqb c SQUOTE then str "&#39;"
  else if Ascii.eqb c "&"%char then str "&amp;"
  else if Ascii.eqb c "<"%char then str "&lt;"
  else if Ascii.eqb c ">"%char then str "&gt;"
  else if Ascii.eqb c "160"%char then str "&nbsp;"
  else [c].

(** The pairs of an array: the index, as [Object.keys] writes it, and the
    element. *)
Definition array_pairs (elems : list value) : list (value * value) :=
  imap (fun i x => (VStr (num_to_string (Z.of_nat i)), x)) elems.

(** The pairs of an object, in the order of [Object.keys]. *)
Definition object_pairs (props : list (jsstring * value)) : list (value * value) :=
  (fun p => (VStr p.1, p.2)) <$> own_entries props.

(** The entry [p] is not after the entry [q] by its array index. *)
Definition index_le (p q : jsstring * value) : Prop :=
  match array_index p.1, array_index q.1 with
  | Some i, Some j => (i <= j)%N
  | _, _ => False
  end.

(** [(value, key) => typeof key === 'number'] *)
Definition key_is_number : list value -> value :=
  fun args => VBool (match index args 1 with VNum _ => true | _ => false end).

(** The pairs of a count: the index twice. *)
Definition count_pairs (n : nat) : list (value * value) :=
  (fun i => (VNum (Z.of_nat i), VNum (Z.of_nat i))) <$> seq 0 n.


Section LoopVocabulary.

Context {St : Type}.

(** One call of [body] per pair (key, value), in order, with the value and
    then the key as arguments; the results in the order of the calls. *)
Fixpoint invoke_in_order (body : jsfun St) (pairs : list (value * value)) (st : St) :
    result (list value * St) :=
  match pairs with
  | [] => Ok ([], st)
  | (key, value) :: rest =>
      match body [value; key] st with
      | Throw e => Throw e
      | Ok (r, st1) =>
          match invoke_in_order body rest st1 with
          | Throw e => Throw e
          | Ok (rs, st2) => Ok (r :: rs, st2)
          end
      end
  end.

(** The function branch after the calls: the join of the results. *)
Definition joined_results (joinChar : option jsstring)
    (calls : result (list value * St)) : option (result (jsstring * St)) :=
  match calls with
  | Throw e => Some (Throw e)
  | Ok (rs, st') => Some (Ok (join_mapped (default [LF] joinChar) rs, st'))
  end.

(** A run of the [while] loop: the predicate returned exactly [true]
    before each of the body calls that gave [rs], and then a value other
    than [true]. *)
Inductive while_run (object strings : jsfun St) : St → list value → St → Prop :=
| run_stop (st st1 : St) (c : value) :
    object [] st = Ok (c, st1) → c ≠ VBool true →
    while_run object strings st [] st1
| run_step (st st1 st2 st3 : St) (r : value) (rs : list value) :
    object [] st = Ok (VBool true, st1) →
    strings [] st1 = Ok (r, st2) →
    while_run object strings st2 rs st3 →
    while_run object strings st (r :: rs) st3.

End LoopVocabulary.

(** [_ => i < 2] over a counter [i], with the number 1 in place of [false]. *)
Definition below_two_or_one : jsfun nat :=
  fun _ i => Ok (if (i <? 2)%nat then VBool true else VNum 1, i).

(** [_ => `This is ${i++}`] *)
Definition this_is_count : jsfun nat :=
  fun _ i => Ok (VStr (str "This is " ++ num_to_string (Z.of_nat i)), S i).


(** * Vocabulary of the further properties *)

(** The expression the source binds to [lastToken]. *)
Definition lastToken (s : jsstring) : jsstring :=
  substr_from s (search_index (search_token_sep s) + 1).

(** What an untagged template literal gives: the segments and the string
    forms of the values in turn. *)
Fixpoint interleave (segments : list jsstring) (values : list value) : jsstring :=
  match segments, values with
  | s :: segments', v :: values' => s ++ to_string v ++ interleave segments' values'
  | s :: _, [] => s
  | [], _ => []
  end.

(** The whitespace a line begins with. *)
Definition leading_ws (s : jsstring) : jsstring := take (search_non_ws s) s.

(** A boolean, a number, or a string that does not begin with a line break. *)
Definition plain_value (v : value) : bool :=
  match v with
  | VBool _ | VNum _ => true
  | VStr s => negb (startsWith_LF s)
  | _ => false
  end.

Definition is_undefined (v : value) : bool :=
  match v with
  | VUndef => true
  | _ => false
  end.

(** The arguments of the first branch whose condition is truthy, or those
    of the [else] branch. *)
Fixpoint selected_branch (branches : list (value * list value))
    (otherwise : list value) : list value :=
  match branches with
  | [] => otherwise
  | (condition, args) :: rest =>
      if to_boolean condition then args else selected_branch rest otherwise
  end.

(** [yatte.if(c0)(A0).elseIf(c1)(A1)...else(C)] *)
Definition run_chain (cfg : settings) (first : value * list value)
    (branches : list (value * list value)) (otherwise : list value) : result jsstring :=
  c ← yatte_if cfg first.1 first.2;
  c ← chain_elseIfs cfg c branches;
  chain_else cfg c otherwise.

(** No character of the string is one of the six that the escape function
    rewrites: the two quotes, [&], [<], [>] and the no-break space. *)
Definition html_safe (s : jsstring) : bool :=
  forallb (fun c => negb (Ascii.eqb c DQUOTE || Ascii.eqb c SQUOTE || Ascii.eqb c "&"%char
                          || Ascii.eqb c "<"%char || Ascii.eqb c ">"%char
                          || Ascii.eqb c "160"%char)) s.

(** Every number in the value is a safe integer, so that [to_string] writes
    the value as JavaScript does. *)
Fixpoint safe_value (v : value) : bool :=
  match v with
  | VNum n => (Z.abs n <? 2 ^ 53)%Z
  | VArr elems => forallb safe_value elems
  | VObj props => forallb (fun p => safe_value p.2) props
  | _ => true
  end.

(** Neither an own key of the registry nor a name it inherits. *)
Definition not_a_member (cfg : settings) (name : jsstring) : Prop :=
  get_member (transform (format cfg)) name = None.

(** [_ => true] and [_ => 'x'] *)
Definition always_true {St : Type} : jsfun St := pure_fun (fun _ => VBool true).
Definition always_x {St : Type} : jsfun St := pure_fun (fun _ => VStr (str "x")).

(** A body that throws its first argument when it is a number. *)
Definition throw_numbers : jsfun unit :=
  fun args st =>
    match index args 0 with
    | VNum n => Throw (Thrown (VNum n))
    | v => Ok (v, st)
    end.

(** The base indentation [dedent] reads off the first segment, and a
    segment with it taken off. *)
Definition base_indent (s0 : jsstring) : Z := (Z.of_nat (search_indent_end s0) - 1)%Z.

Definition dedent_text (indent : Z) (text : jsstring) : jsstring :=
  join [LF] (dedent_lines indent text).

(** [x => "\n  <li>" + x] *)
Definition list_item : list value → value :=
  fun args => VStr (nl "  <li>" ++ to_string (index args 0)).

(** ** [removeES6Export], the step of the build that makes the browser file *)

(** [s] begins with [pat]. *)
Fixpoint starts_with (pat s : jsstring) : bool :=
  match pat, s with
  | [], _ => true
  | p :: pat', c :: s' => Ascii.eqb p c && starts_with pat' s'
  | _ :: _, [] => false
  end.

(** [s.replace(/pat/g, rep)] for a non-empty pattern of literal characters
    and a replacement without [$] patterns: the matches are taken from the
    left and do not overlap; [skip] counts the characters of the current
    match that are still to be passed over. *)
Fixpoint replace_literal (pat rep : jsstring) (skip : nat) (s : jsstring) : jsstring :=
  match s with
  | [] => []
  | c :: r =>
      match skip with
      | S k => replace_literal pat rep k r
      | O =>
          if starts_with pat s then rep ++ replace_literal pat rep (length pat - 1) r
          else c :: replace_literal pat rep 0 r
      end
  end.

Definition export_default : jsstring := str "export default".
Definition window_yatte : jsstring := str "window.yatte =".

(** [content.replace(/export default/g, 'window.yatte =')] *)
Definition removeES6Export (content : jsstring) : jsstring :=
  replace_literal export_default window_yatte 0 content.

(** * Properties *)

(** ** The examples of the README *)

Example to_string_nested :
  to_string (VArr [VNum 1; VNull; VArr [VStr (str "a"); VNum (-2)]]) = str "1,,a,-2".
Proof. reflexivity. Qed.

Example readme_indentation :
  yatte_do (yatte_settings None) (VArr [VStr (nl "  1" ++ nl "    2")]) []
  = Ok (nl "1" ++ nl "  2").
Proof. reflexivity. Qed.

Example readme_escape :
  yatte_do (yatte_settings (Some {| textContent := [] |}))
    (VArr [VStr (str "This is HTML $"); VStr []]) [VStr (str "<p>test</p>")]
  = Ok (str "This is HTML &lt;p&gt;test&lt;/p&gt;").
Proof. vm_compute. reflexivity. Qed.

Example readme_upper :
  yatte_do (yatte_settings None)
    (VArr [VStr (str "This is U"); VStr []]) [VStr (str "lower")]
  = Ok (str "This is LOWER").
Proof. vm_compute. reflexivity. Qed.

Example readme_loop_array :
  yatte_loop 0 (yatte_settings None)
    (AVal (VArr [VStr (str "Parrot"); VStr (str "Rabbit"); VStr (str "Snake")])) None
    (AFun (pure_fun this_is_a)) [] tt
  = Some (Ok (str "This is a Parrot" ++ nl "This is a Rabbit" ++ nl "This is a Snake", tt)).
Proof. vm_compute. reflexivity. Qed.

Example readme_loop_object :
  yatte_loop 0 (yatte_settings None)
    (AVal (VObj [(str "name", VStr (str "Joe")); (str "age", VNum 46)])) None
    (AFun (pure_fun key_colon_value)) [] tt
  = Some (Ok (str "name: Joe" ++ nl "age: 46", tt)).
Proof. vm_compute. reflexivity. Qed.

Example readme_loop_count :
  yatte_loop 0 (yatte_settings None) (AVal (VNum 5)) (Some (str "-"))
    (AVal (VArr [VStr (str "Hi!")])) [] tt
  = Some (Ok (str "Hi!-Hi!-Hi!-Hi!-Hi!", tt)).
Proof. vm_compute. reflexivity. Qed.


(** ** String primitives *)

Lemma substr_from_nat (s : jsstring) (k : nat) : substr_from s (Z.of_nat k) = drop k s.
Proof.
  unfold substr_from, substr_start.
  destruct (Z.ltb_spec (Z.of_nat k) 0) as [H|H]; [lia|].
  destruct (Nat.le_gt_cases k (length s)) as [Hk|Hk].
  - by replace (Z.to_nat (Z.min (Z.of_nat k) (Z.of_nat (length s)))) with k by lia.
  - replace (Z.to_nat (Z.min (Z.of_nat k) (Z.of_nat (length s)))) with (length s) by lia.
    rewrite !drop_ge; [done|lia|lia].
Qed.

Lemma substr_prefix (s : jsstring) (n : nat) : substr s 0 (Z.of_nat n) = take n s.
Proof.
  unfold substr, substr_start. simpl.
  replace (Z.to_nat (Z.min 0 (Z.of_nat (length s)))) with 0 by lia.
  by rewrite drop_0, Nat2Z.id.
Qed.

Lemma split_LF_cons_line (c : ascii) (s : jsstring) :
  Ascii.eqb c LF = false →
  split_LF (c :: s) = (c :: default [] (head (split_LF s))) :: tail (split_LF s).
Proof. intros H. simpl. rewrite H. by destruct (split_LF s). Qed.

Lemma split_LF_line (l rest : jsstring) :
  LF ∉ l → split_LF (l ++ LF :: rest) = l :: split_LF rest.
Proof.
  induction l as [|c l IH]; intros Hl.
  - done.
  - apply not_elem_of_cons in Hl as [Hc Hl].
    assert (Ascii.eqb c LF = false) as Hcb.
    { apply Ascii.eqb_neq. congruence. }
    rewrite <- app_comm_cons, split_LF_cons_line by exact Hcb.
    by rewrite (IH Hl).
Qed.

Lemma split_LF_last_line (l : jsstring) : LF ∉ l → split_LF l = [l].
Proof.
  induction l as [|c l IH]; intros Hl; [done|].
  apply not_elem_of_cons in Hl as [Hc Hl].
  assert (Ascii.eqb c LF = false) as Hcb.
  { apply Ascii.eqb_neq. congruence. }
  rewrite split_LF_cons_line by exact Hcb.
  by rewrite (IH Hl).
Qed.

(** Splitting is the inverse of joining lines that hold no line break. *)
Lemma split_LF_join (l : jsstring) (ls : list jsstring) :
  Forall (fun x => LF ∉ x) (l :: ls) → split_LF (join [LF] (l :: ls)) = l :: ls.
Proof.
  revert l. induction ls as [|l' ls IH]; intros l Hall.
  - apply split_LF_last_line. by inversion Hall.
  - inversion Hall as [|? ? Hl Hrest]; subst.
    change (join [LF] (l :: l' :: ls)) with (l ++ LF :: join [LF] (l' :: ls)).
    rewrite split_LF_line by done. f_equal. by apply IH.
Qed.

Lemma split_LF_nonempty (s : jsstring) : split_LF s ≠ [].
Proof.
  destruct s as [|c s]; [done|]. simpl.
  destruct (Ascii.eqb c LF); [done|]. by destruct (split_LF s).
Qed.

Lemma join_split_LF (s : jsstring) : join [LF] (split_LF s) = s.
Proof.
  induction s as [|c s IH]; [done|]. simpl.
  pose proof (split_LF_nonempty s) as Hne.
  destruct (Ascii.eqb_spec c LF) as [->|Hc].
  - destruct (split_LF s) as [|l ls]; [done|]. simpl in *. by rewrite IH.
  - destruct (split_LF s) as [|l ls]; [done|].
    rewrite <- IH. by destruct ls.
Qed.

Lemma search_indent_end_run (ws rest : jsstring) :
  Forall (fun c => is_indent_char c = true) ws →
  is_indent_char <$> head rest ≠ Some true →
  search_indent_end (ws ++ rest) = length ws.
Proof.
  intros Hws Hrest. induction Hws as [|c ws Hc _ IH]; simpl.
  - destruct rest as [|c r]; [done|]. simpl in *.
    destruct (is_indent_char c); [congruence|done].
  - by rewrite Hc, IH.
Qed.

(** ** [dedent] *)

Lemma dedent_lines_strip (k : nat) (text : jsstring) :
  dedent_lines (Z.of_nat k) text = strip_indent k (split_LF text).
Proof.
  unfold dedent_lines. destruct (split_LF text) as [|l ls]; [done|].
  simpl. f_equal. rewrite <- (imap_const (drop k) ls).
  apply imap_ext. intros i x _. simpl. apply substr_from_nat.
Qed.

Lemma bind_Ok {A B} (m : result A) (f : A → result B) (b : B) :
  m ≫= f = Ok b → ∃ a, m = Ok a ∧ f a = Ok b.
Proof. destruct m as [a|e]; [by exists a|done]. Qed.

Lemma bind_Throw {A B} (m : result A) (f : A → result B) (e : exn) :
  m = Throw e → m ≫= f = Throw e.
Proof. by intros ->. Qed.

Lemma as_string_Ok (v : value) (s : jsstring) : as_string v = Ok s → v = VStr s.
Proof. destruct v; simpl; congruence. Qed.

(** The strings [dedent] returns do not depend on the values. *)
Lemma dedent_forEach_strings (indent : Z) (values : list value) (texts : list value) :
  ∀ (i : nat) (res r : dedented),
    dedent_forEach indent values i texts res = Ok r →
    ∃ ts : list jsstring,
      texts = VStr <$> ts ∧
      result_strings r
      = result_strings res ++ ((fun t => VStr (join [LF] (dedent_lines indent t))) <$> ts).
Proof.
  induction texts as [|text rest IH]; intros i res r Hr; simpl in Hr.
  - exists []. simplify_eq. by rewrite app_nil_r.
  - apply bind_Ok in Hr as (t & Ht & Hr). apply as_string_Ok in Ht as ->.
    apply bind_Ok in Hr as (vs & _ & Hr).
    apply IH in Hr as (ts & -> & ->). exists (t :: ts). split; [done|].
    simpl. by rewrite <- app_assoc.
Qed.


Lemma join_cons2 (sep p q : jsstring) (ps : list jsstring) :
  join sep (p :: q :: ps) = p ++ sep ++ join sep (q :: ps).
Proof. done. Qed.





(** ** [explicitTransformation] *)

Lemma non_ws_run_forallb (tok : jsstring) :
  non_ws_run tok = true → forallb (fun c => negb (is_ws c)) tok = true.
Proof. by destruct tok. Qed.

Lemma search_token_sep_none (tok : jsstring) :
  forallb (fun c => negb (is_ws c)) tok = true → search_token_sep tok = None.
Proof.
  induction tok as [|c tok IH]; [done|]. simpl. intros [Hc Htok]%andb_prop.
  apply negb_true_iff in Hc. rewrite Hc. simpl. by rewrite IH.
Qed.

Lemma non_ws_run_ws (p tok : jsstring) (c : ascii) :
  is_ws c = true → non_ws_run (p ++ c :: tok) = false.
Proof.
  intros Hc. assert (forallb (fun c => negb (is_ws c)) (p ++ c :: tok) = false) as H.
  { rewrite forallb_app. simpl. rewrite Hc. simpl. apply andb_false_r. }
  unfold non_ws_run. by destruct (p ++ c :: tok).
Qed.

Lemma search_token_sep_last (p tok : jsstring) (c : ascii) :
  is_ws c = true → non_ws_run tok = true →
  search_token_sep (p ++ c :: tok) = Some (length p).
Proof.
  intros Hc Htok. induction p as [|x p IH]; simpl.
  - by rewrite Hc, Htok.
  - rewrite (non_ws_run_ws p tok c Hc), andb_false_r, IH. done.
Qed.

Lemma token_start_inv (pre : jsstring) :
  token_start pre = true → pre = [] ∨ ∃ p c, pre = p ++ [c] ∧ is_ws c = true.
Proof.
  unfold token_start. destruct (last pre) as [c|] eqn:E.
  - intros Hc. right. apply last_Some in E as [p ->]. eauto.
  - apply last_None in E. auto.
Qed.

(** The last token of a segment that ends in a token is that token. *)
Lemma lastToken_spec (pre tok : jsstring) :
  token_start pre = true → is_token tok = true →
  substr_from (pre ++ tok) (search_index (search_token_sep (pre ++ tok)) + 1) = tok.
Proof.
  intros Hpre Htok. apply token_start_inv in Hpre as [->|(p & c & -> & Hc)].
  - rewrite app_nil_l, search_token_sep_none by by apply non_ws_run_forallb.
    change (search_index None + 1)%Z with (Z.of_nat 0). by rewrite substr_from_nat.
  - rewrite <- app_assoc. simpl. rewrite search_token_sep_last by done. simpl.
    replace (Z.of_nat (length p) + 1)%Z with (Z.of_nat (length (p ++ [c])))
      by (rewrite length_app; simpl; lia).
    rewrite substr_from_nat.
    change (p ++ c :: tok) with (p ++ [c] ++ tok).
    by rewrite (app_assoc p [c] tok), drop_app_length.
Qed.

Lemma substr_without_token (pre tok : jsstring) :
  substr (pre ++ tok) 0 (Z.of_nat (length (pre ++ tok)) - Z.of_nat (length tok)) = pre.
Proof.
  replace (Z.of_nat (length (pre ++ tok)) - Z.of_nat (length tok))%Z
    with (Z.of_nat (length pre)) by (rewrite length_app; lia).
  by rewrite substr_prefix, take_app_length.
Qed.

Lemma is_token_length (tok : jsstring) : is_token tok = true → (0 <? length tok) = true.
Proof. by destruct tok. Qed.

(** An own key of the registry is found before any inherited name. *)
Lemma get_member_own (suffixes : gmap jsstring (settings_functions → value → result value))
    (name : jsstring) (f : settings_functions → value → result value) :
  suffixes !! name = Some f → get_member suffixes name = Some (MFunction f).
Proof. intros Hf. unfold get_member. by rewrite Hf. Qed.

(** A registered token that is not escaped is cut off the segment and its
    function is applied to the value. *)
Lemma explicitTransformation_token (cfg : settings) (pre tok : jsstring)
    (f : settings_functions → value → result value) (v : value) :
  token_start pre = true → is_token tok = true →
  startsWith_backslash tok = false →
  transform (format cfg) !! tok = Some f →
  explicitTransformation cfg (VStr (pre ++ tok)) v
  = v' ← f (functions cfg) v; Ok (pre ++ to_string v').
Proof.
  intros Hpre Htok Hesc Hf. unfold explicitTransformation. simpl.
  rewrite lastToken_spec by done. rewrite is_token_length by done.
  rewrite Hesc. simpl. rewrite (get_member_own _ _ _ Hf), substr_without_token.
  by destruct (f (functions cfg) v).
Qed.
Lemma replace_char_app (c : ascii) (rep a b : jsstring) :
  replace_char c rep (a ++ b) = replace_char c rep a ++ replace_char c rep b.
Proof. unfold replace_char. by rewrite fmap_app, join_app. Qed.

Lemma replace_char_mjoin (c : ascii) (rep : jsstring) (f : ascii → jsstring) (s : jsstring) :
  replace_char c rep (mjoin (f <$> s)) = mjoin ((fun x => replace_char c rep (f x)) <$> s).
Proof.
  induction s as [|x s IH]; [done|].
  rewrite !fmap_cons. simpl. by rewrite replace_char_app, IH.
Qed.

Lemma escaped_char_spec (c : ascii) :
  replace_char SQUOTE (str "&#39;") (replace_char DQUOTE (str "&#34;") (serialize_char c))
  = escaped_char c.
Proof. destruct c as [[] [] [] [] [] [] [] []]; reflexivity. Qed.

Lemma escaped_char_no_quote (c : ascii) :
  (DQUOTE ∉ escaped_char c) ∧ (SQUOTE ∉ escaped_char c).
Proof.
  assert (forallb (fun x => negb (Ascii.eqb x DQUOTE) && negb (Ascii.eqb x SQUOTE))
            (escaped_char c) = true) as H.
  { destruct c as [[] [] [] [] [] [] [] []]; reflexivity. }
  rewrite forallb_forall in H.
  split; intros Hin%list_elem_of_In%H; by vm_compute in Hin.
Qed.

(** The default escape function writes every character of a string as
    [escaped_char] gives it. *)
Lemma default_escapeHTMLFunc_string (t : textarea) (s : jsstring) :
  default_escapeHTMLFunc (Some t) (VStr s) = Ok (VStr (mjoin (escaped_char <$> s))).
Proof.
  unfold default_escapeHTMLFunc, innerHTML. simpl.
  rewrite !replace_char_mjoin. do 3 f_equal.
  apply list_fmap_ext. intros _ c _. apply escaped_char_spec.
Qed.

Lemma escaped_no_quote (s : jsstring) :
  (DQUOTE ∉ mjoin (escaped_char <$> s)) ∧ (SQUOTE ∉ mjoin (escaped_char <$> s)).
Proof.
  induction s as [|c s [IH1 IH2]]; [split; apply not_elem_of_nil|].
  destruct (escaped_char_no_quote c) as [H1 H2].
  rewrite fmap_cons. simpl. by rewrite !not_elem_of_app.
Qed.

Lemma dedent_not_engaged (s0 : jsstring) (strings values : list value) :
  strings !! 0 = Some (VStr s0) → startsWith_LF s0 = false →
  dedent strings values = Ok {| result_strings := strings; result_values := values |}.
Proof. intros H0 Hs. unfold dedent, index. rewrite H0. simpl. by rewrite Hs. Qed.

(** Without a leading line break in the first segment the strings and values
    reach the [return] of [yatte.do] as they are. *)
Lemma do_arguments_verbatim (cfg : settings) (s0 : jsstring) (strings values : list value) :
  strings !! 0 = Some (VStr s0) → startsWith_LF s0 = false →
  do_arguments cfg (VArr strings) values = Ok (strings, values).
Proof.
  intros H0 Hs. unfold do_arguments. destruct (indentation (format cfg)); [|done].
  by rewrite (dedent_not_engaged s0).
Qed.

(** C3, at the input where the code departs from it: an indented template
    with an [undefined] value before the value that follows the token [$].
    [dedent] drops the [undefined] value, the other value moves up to the
    first segment, and the segment that ends in [$] is never looked at: the
    value is returned unescaped and the segment is lost.  With indentation
    disabled the same call strips the token and escapes the value, as the
    claim says, and so does the example of the README. *)
Theorem token_skipped_after_undefined_value (t : textarea) :
  yatte_do (yatte_settings (Some t))
    (VArr [VStr (nl "  a "); VStr (str " $"); VStr (str "!")])
    [VUndef; VStr (str "<script>")]
  = Ok (nl "a <script>!")
  ∧ yatte_do
      {| functions := functions (yatte_settings (Some t));
         format := {| indentation := false; transform := default_transform |} |}
      (VArr [VStr (nl "  a "); VStr (str " $"); VStr (str "!")])
      [VUndef; VStr (str "<script>")]
    = Ok (nl "  a undefined &lt;script&gt;!")
  ∧ yatte_do (yatte_settings (Some t))
      (VArr [VStr (str "This is HTML $"); VStr []]) [VStr (str "<p>test</p>")]
    = Ok (str "This is HTML &lt;p&gt;test&lt;/p&gt;").
Proof. split_and!; vm_compute; reflexivity. Qed.

(** C2, at the input where the code departs from it: the token [$] escaped
    with a backslash.  The segment keeps the backslash; the claim has it
    stripped.  The value is untransformed, as the claim says. *)
Theorem escaped_token_keeps_escape_marker :
  explicitTransformation (yatte_settings None) (VStr (str "a \$")) (VStr (str "<x>"))
  = Ok (str "a \$<x>")
  ∧ yatte_do (yatte_settings None) (VArr [VStr (str "a \$"); VStr []]) [VStr (str "<x>")]
    = Ok (str "a \$<x>").
Proof. split; vm_compute; reflexivity. Qed.
(** ** [yatte.do] *)

(** An interpolation that throws makes the whole reduction throw. *)
Lemma reduce_values_throws (cfg : settings) (strings : list value) (values : list value) :
  ∀ (j i : nat) (old : jsstring) (v : value) (e0 : exn),
    values !! i = Some v →
    explicitTransformation cfg (index strings (j + i)) v = Throw e0 →
    ∃ e, reduce_values cfg strings j values old = Throw e.
Proof.
  induction values as [|x values IH]; intros j i old v e0 Hv Hthrow; [done|].
  simpl. destruct i as [|i]; simpl in Hv.
  - injection Hv as ->. rewrite Nat.add_0_r in Hthrow. rewrite Hthrow. by exists e0.
  - destruct (explicitTransformation cfg (index strings j) x) as [piece|e]; [|by exists e].
    simpl. apply (IH (S j) i _ v e0 Hv).
    by replace (S j + i) with (j + S i) by lia.
Qed.

(** C4: when the escape token [$] stands before an interpolation point and
    [escape] is [null], the default escape function throws, and so does the
    call of [yatte.do]; no string is returned. *)
Theorem escape_token_without_escape_function_throws
    (cfg : settings) (strings : value) (values ss vs : list value)
    (i : nat) (pre : jsstring) (v : value) :
  escapeHTMLFunc (functions cfg) = default_escapeHTMLFunc None →
  transform (format cfg) !! str "$" = Some transform_escape →
  do_arguments cfg strings values = Ok (ss, vs) →
  ss !! i = Some (VStr (pre ++ str "$")) →
  vs !! i = Some v →
  token_start pre = true →
  explicitTransformation cfg (VStr (pre ++ str "$")) v = Throw TypeError
  ∧ (∃ e, yatte_do cfg strings values = Throw e)
  ∧ yatte_do (yatte_settings None)
      (VArr [VStr (str "This is HTML $"); VStr []]) [VStr (str "<p>test</p>")]
    = Throw TypeError.
Proof.
  intros Hesc Hreg Hargs Hs Hv Hpre.
  assert (explicitTransformation cfg (VStr (pre ++ str "$")) v = Throw TypeError) as Hthrow.
  { rewrite (explicitTransformation_token cfg pre (str "$") transform_escape) by done.
    unfold transform_escape. by rewrite Hesc. }
  split; [exact Hthrow|]. split; [|reflexivity].
  unfold yatte_do. rewrite Hargs. simpl.
  destruct (reduce_values_throws cfg ss vs 0 i [] v TypeError Hv) as [e He].
  { unfold index. simpl. by rewrite Hs. }
  exists e. by rewrite He.
Qed.

Lemma escape_token_without_escape_function_throws_witness :
  ∃ e, yatte_do (yatte_settings None)
         (VArr [VStr (nl "  <b>" ++ nl "    $"); VStr (nl "  </b>")]) [VStr (str "a&b")]
       = Throw e.
Proof.
  exact (proj1 (proj2 (escape_token_without_escape_function_throws (yatte_settings None)
           (VArr [VStr (nl "  <b>" ++ nl "    $"); VStr (nl "  </b>")]) [VStr (str "a&b")]
           [VStr (nl "<b>" ++ nl "  $"); VStr (nl "</b>")] [VStr (str "a&b")]
           0 (nl "<b>" ++ nl "  ") (VStr (str "a&b"))
           eq_refl eq_refl eq_refl eq_refl eq_refl eq_refl))).
Defined.

(** ** [yatte.if] *)

Lemma chain_elseIfs_resolved (cfg : settings) (result : jsstring)
    (branches : list (value * list value)) :
  chain_elseIfs cfg (Resolved result) branches = Ok (Resolved result).
Proof. induction branches as [|[condition args] rest IH]; [done|]. simpl. exact IH. Qed.

(** C5: after a true condition the chain holds the render of its branch:
    every later [elseIf] leaves it as it is, whatever its condition and
    arguments, and [else] returns it; after a false condition an [elseIf]
    with a true condition gives the render of its own branch. *)
Theorem conditional_chain_first_match (cfg : settings) (A B C : list value) (anything : value) :
  (c ← yatte_if cfg (VBool true) A; c ← chain_elseIf cfg c anything B; chain_else cfg c C)
  = yatte_do_spread cfg A
  ∧ (∀ branches : list (value * list value),
       (c ← yatte_if cfg (VBool true) A; c ← chain_elseIfs cfg c branches; chain_else cfg c C)
       = yatte_do_spread cfg A)
  ∧ (c ← yatte_if cfg (VBool false) A; c ← chain_elseIf cfg c (VBool true) B; chain_else cfg c C)
    = yatte_do_spread cfg B.
Proof.
  unfold yatte_if. cbn [to_boolean]. split; [|split].
  - by destruct (yatte_do_spread cfg A).
  - intros branches. destruct (yatte_do_spread cfg A) as [a|e]; [|done].
    cbn [mbind result_bind ifFallThrough]. by rewrite chain_elseIfs_resolved.
  - cbn [mbind result_bind chain_elseIf]. unfold yatte_if. cbn [to_boolean].
    by destruct (yatte_do_spread cfg B).
Qed.
(** ** [yatte.loop] *)

Section LoopProperties.

Context {St : Type}.
Implicit Types (body object : jsfun St) (st : St).

Lemma call_each_in_order body (pairs : list (value * value)) :
  ∀ (mapped : list value) st,
    call_each body ((fun item => [item.2; item.1]) <$> pairs) mapped st
    = match invoke_in_order body pairs st with
      | Ok (rs, st') => Ok (mapped ++ rs, st')
      | Throw e => Throw e
      end.
Proof.
  induction pairs as [|[key value] rest IH]; intros mapped st; simpl.
  - by rewrite app_nil_r.
  - destruct (body [value; key] st) as [[r st1]|e]; [|done].
    rewrite IH. destruct (invoke_in_order body rest st1) as [[rs st2]|e]; [|done].
    by rewrite <- app_assoc.
Qed.

Lemma loop_over_array (fuel : nat) (cfg : settings) (elems : list value)
    (joinChar : option jsstring) body (values : list value) st :
  yatte_loop fuel cfg (AVal (VArr elems)) joinChar (AFun body) values st
  = joined_results joinChar (invoke_in_order body (array_pairs elems) st).
Proof.
  unfold yatte_loop. simpl. rewrite call_each_in_order.
  fold (array_pairs elems).
  by destruct (invoke_in_order body (array_pairs elems) st) as [[rs st']|e].
Qed.

Lemma loop_over_object (fuel : nat) (cfg : settings) (props : list (jsstring * value))
    (joinChar : option jsstring) body (values : list value) st :
  yatte_loop fuel cfg (AVal (VObj props)) joinChar (AFun body) values st
  = joined_results joinChar (invoke_in_order body (object_pairs props) st).
Proof.
  unfold yatte_loop. simpl. rewrite call_each_in_order.
  fold (object_pairs props).
  by destruct (invoke_in_order body (object_pairs props) st) as [[rs st']|e].
Qed.

Lemma loop_over_count (fuel : nat) (cfg : settings) (n : Z)
    (joinChar : option jsstring) body (values : list value) st :
  yatte_loop fuel cfg (AVal (VNum n)) joinChar (AFun body) values st
  = joined_results joinChar (invoke_in_order body (count_pairs (Z.abs_nat n)) st).
Proof.
  unfold yatte_loop. simpl.
  assert ((fun i => [VNum (Z.of_nat i); VNum (Z.of_nat i)]) <$> seq 0 (Z.abs_nat n)
          = (fun item : value * value => [item.2; item.1]) <$> count_pairs (Z.abs_nat n)) as ->.
  { unfold count_pairs. by rewrite <- list_fmap_compose. }
  rewrite call_each_in_order.
  by destruct (invoke_in_order body (count_pairs (Z.abs_nat n)) st) as [[rs st']|e].
Qed.

End LoopProperties.

(** A joined list followed by the separator is every piece followed by the
    separator: the join itself ends with the last piece. *)
Lemma join_then_sep (sep p : jsstring) (ps : list jsstring) :
  join sep (p :: ps) ++ sep = mjoin ((fun x => x ++ sep) <$> (p :: ps)).
Proof.
  revert p. induction ps as [|q ps IH]; intros p.
  - simpl. by rewrite app_nil_r.
  - rewrite join_cons2, <- !app_assoc, IH, (fmap_cons _ p).
    cbn [mjoin list_join]. by rewrite <- app_assoc.
Qed.

(** ** The order of [Object.keys] *)

Lemma insert_by_index_perm (x : N * (jsstring * value)) (l : list (N * (jsstring * value))) :
  insert_by_index x l ≡ₚ x :: l.
Proof.
  induction l as [|y l IH]; [done|]. simpl.
  destruct (x.1 <=? y.1)%N; [done|]. rewrite IH. apply Permutation_swap.
Qed.

Lemma sort_by_index_perm (l : list (N * (jsstring * value))) : sort_by_index l ≡ₚ l.
Proof.
  induction l as [|x l IH]; [done|].
  unfold sort_by_index in *. simpl. by rewrite insert_by_index_perm, IH.
Qed.

Lemma insert_by_index_sorted (x : N * (jsstring * value)) (l : list (N * (jsstring * value))) :
  StronglySorted (fun a b => (a.1 <= b.1)%N) l →
  StronglySorted (fun a b => (a.1 <= b.1)%N) (insert_by_index x l).
Proof.
  induction 1 as [|y l Hsorted IH Hy]; simpl.
  - repeat constructor.
  - destruct (N.leb_spec x.1 y.1) as [Hle|Hgt].
    + constructor; [by constructor|]. constructor; [done|].
      eapply Forall_impl; [exact Hy|]. intros z Hz. simpl in *. lia.
    + constructor; [done|]. rewrite insert_by_index_perm.
      constructor; [lia|done].
Qed.

Lemma sort_by_index_sorted (l : list (N * (jsstring * value))) :
  StronglySorted (fun a b => (a.1 <= b.1)%N) (sort_by_index l).
Proof.
  induction l as [|x l IH]; [constructor|]. by apply insert_by_index_sorted.
Qed.

Lemma indexed_entries (props : list (jsstring * value)) :
  Forall (fun x : N * (jsstring * value) => array_index x.2.1 = Some x.1)
    (omap (fun p => (fun i => (i, p)) <$> array_index p.1) props).
Proof.
  induction props as [|p props IH]; [constructor|]. simpl.
  destruct (array_index p.1) as [i|] eqn:Hi; simpl; [by constructor|done].
Qed.

Lemma sorted_entries (l : list (N * (jsstring * value))) :
  Forall (fun x : N * (jsstring * value) => array_index x.2.1 = Some x.1) l →
  StronglySorted (fun a b => (a.1 <= b.1)%N) l →
  StronglySorted index_le (snd <$> l) ∧ Forall (fun p => is_Some (array_index p.1)) (snd <$> l).
Proof.
  intros Hinv Hsorted. induction Hsorted as [|x l Hsorted IH Hx]; [by repeat constructor|].
  inversion Hinv as [|? ? Hix Hil]; subst. destruct (IH Hil) as [IH1 IH2].
  rewrite fmap_cons. split; [|constructor; [by rewrite Hix|done]].
  constructor; [done|]. apply Forall_fmap, Forall_forall. intros y Hy.
  rewrite Forall_forall in Hx, Hil. unfold index_le. simpl.
  by rewrite Hix, (Hil y Hy); apply Hx.
Qed.

Lemma own_entries_perm (props : list (jsstring * value)) : own_entries props ≡ₚ props.
Proof.
  unfold own_entries. rewrite sort_by_index_perm.
  induction props as [|p props IH]; [done|]. simpl.
  destruct (array_index p.1) as [i|] eqn:Hi; simpl.
  - rewrite filter_cons_False by (rewrite Hi; done). simpl. by rewrite IH.
  - rewrite filter_cons_True by done. rewrite <- Permutation_middle. by rewrite IH.
Qed.

Lemma own_entries_length (props : list (jsstring * value)) :
  length (own_entries props) = length props.
Proof. by rewrite own_entries_perm. Qed.

Lemma own_entries_no_index (props : list (jsstring * value)) :
  Forall (fun p => array_index p.1 = None) props → own_entries props = props.
Proof.
  intros Hnone. unfold own_entries.
  assert (omap (fun p => (fun i => (i, p)) <$> array_index p.1) props = []) as ->.
  { induction Hnone as [|p props Hp _ IH]; [done|]. simpl. by rewrite Hp. }
  simpl. induction Hnone as [|p props Hp _ IH]; [done|].
  rewrite filter_cons_True by done. by rewrite IH.
Qed.

(** C6, as the code has it: in function mode over an array or an object the
    body is called once per own property, in the order of [Object.keys],
    with the value and the key; the key of an array element is its index
    written as a string; the keys of an object that are array indices come
    first, by ascending index, and the other keys follow in the order of
    their creation, which is the whole order when no key is an array index;
    the results are joined with the separator, which does not follow the
    last one; the two examples of the README. *)
Theorem loop_calls_body_per_pair {St : Type} (fuel : nat) (cfg : settings)
    (joinChar : option jsstring) (body : jsfun St) (values : list value) (st : St) :
  (∀ elems : list value,
     yatte_loop fuel cfg (AVal (VArr elems)) joinChar (AFun body) values st
     = joined_results joinChar (invoke_in_order body (array_pairs elems) st))
  ∧ (∀ props : list (jsstring * value),
     yatte_loop fuel cfg (AVal (VObj props)) joinChar (AFun body) values st
     = joined_results joinChar (invoke_in_order body (object_pairs props) st))
  ∧ (∀ props : list (jsstring * value),
       own_entries props ≡ₚ props
       ∧ ∃ indexed : list (jsstring * value),
           own_entries props = indexed ++ filter (fun p => array_index p.1 = None) props
           ∧ Forall (fun p => is_Some (array_index p.1)) indexed
           ∧ StronglySorted index_le indexed)
  ∧ (∀ props : list (jsstring * value),
       Forall (fun p => array_index p.1 = None) props →
       object_pairs props = (fun p => (VStr p.1, p.2)) <$> props)
  ∧ (∀ (sep : jsstring) (r : value) (rs : list value),
       join_mapped sep (r :: rs) ++ sep
       = mjoin ((fun x => join_elem x ++ sep) <$> imap strip_linebreak (r :: rs)))
  ∧ yatte_loop fuel cfg
      (AVal (VArr [VStr (str "Parrot"); VStr (str "Rabbit"); VStr (str "Snake")])) None
      (AFun (pure_fun this_is_a)) values st
    = Some (Ok (str "This is a Parrot" ++ nl "This is a Rabbit" ++ nl "This is a Snake", st))
  ∧ yatte_loop fuel cfg
      (AVal (VObj [(str "name", VStr (str "Joe")); (str "age", VNum 46)])) None
      (AFun (pure_fun key_colon_value)) values st
    = Some (Ok (str "name: Joe" ++ nl "age: 46", st))
  ∧ yatte_loop fuel cfg
      (AVal (VObj [(str "b", VNum 1); (str "2", VStr (str "x")); (str "1", VStr (str "y"))]))
      None (AFun (pure_fun key_colon_value)) values st
    = Some (Ok (str "1: y" ++ nl "2: x" ++ nl "b: 1", st))
  ∧ yatte_loop fuel cfg (AVal (VArr [VStr (str "a")])) None
      (AFun (pure_fun key_is_number)) values st
    = Some (Ok (str "false", st)).
Proof.
  split_and!.
  - intros elems. apply loop_over_array.
  - intros props. apply loop_over_object.
  - intros props. split; [apply own_entries_perm|].
    eexists. split; [reflexivity|].
    pose proof (indexed_entries props) as Hinv.
    rewrite <- sort_by_index_perm in Hinv.
    by destruct (sorted_entries _ Hinv (sort_by_index_sorted _)) as [Hsorted Hindexed].
  - intros props Hnone. unfold object_pairs. by rewrite own_entries_no_index.
  - intros sep r rs. unfold join_mapped, array_join.
    rewrite imap_cons, fmap_cons, join_then_sep, <- (fmap_cons join_elem).
    by rewrite <- list_fmap_compose.
  - by rewrite loop_over_array.
  - by rewrite loop_over_object.
  - by rewrite loop_over_object.
  - by rewrite loop_over_array.
Qed.

Lemma loop_calls_body_per_pair_witness :
  object_pairs [(str "name", VStr (str "Joe")); (str "age", VNum 46)]
  = [(VStr (str "name"), VStr (str "Joe")); (VStr (str "age"), VNum 46)].
Proof.
  refine (proj1 (proj2 (proj2 (proj2
            (@loop_calls_body_per_pair unit 0 (yatte_settings None) None
               (pure_fun this_is_a) [] tt))))
            [(str "name", VStr (str "Joe")); (str "age", VNum 46)] _).
  repeat constructor.
Defined.

(** An object whose keys were created in the order [b], [2], [1] is not
    visited in that order. *)
Lemma object_keys_not_in_insertion_order :
  yatte_loop 0 (yatte_settings None)
    (AVal (VObj [(str "b", VNum 1); (str "2", VStr (str "x")); (str "1", VStr (str "y"))]))
    None (AFun (pure_fun key_colon_value)) [] tt
  ≠ Some (Ok (str "b: 1" ++ nl "2: x" ++ nl "1: y", tt)).
Proof. by vm_compute. Qed.





Lemma repeat_str_joined (s sep : jsstring) (n : nat) :
  repeat_str (s ++ sep) (S n) = join sep (replicate (S n) s) ++ sep.
Proof.
  induction n as [|n IH].
  - simpl. by rewrite app_nil_r.
  - change (repeat_str (s ++ sep) (S (S n))) with ((s ++ sep) ++ repeat_str (s ++ sep) (S n)).
    rewrite IH. change (replicate (S (S n)) s) with (s :: s :: replicate n s).
    rewrite join_cons2. by rewrite <- !app_assoc.
Qed.

(** Repeating the string with the separator and cutting the last separator
    off is joining the repetitions. *)
Lemma repeat_then_cut (s sep : jsstring) (n : nat) :
  substring0 (repeat_str (s ++ sep) n)
    (Z.of_nat (length (repeat_str (s ++ sep) n)) - Z.of_nat (length sep))
  = join sep (replicate n s).
Proof.
  destruct n as [|n]; [apply take_nil|].
  rewrite repeat_str_joined. unfold substring0.
  replace (Z.to_nat (Z.of_nat (length (join sep (replicate (S n) s) ++ sep))
                     - Z.of_nat (length sep)))
    with (length (join sep (replicate (S n) s))) by (rewrite length_app; lia).
  by rewrite take_app_length.
Qed.

Lemma loop_count_literal {St : Type} (fuel : nat) (cfg : settings)
    (joinChar : option jsstring) (segments values : list value) (st : St) (n : Z) :
  yatte_loop fuel cfg (AVal (VNum n)) joinChar (AVal (VArr segments)) values st
  = Some (s ← yatte_do cfg (VArr segments) values;
          Ok (join (default [LF] joinChar) (replicate (Z.abs_nat n) s), st)).
Proof.
  unfold yatte_loop, repeat_joined. cbn [classify].
  destruct (yatte_do cfg (VArr segments) values) as [s|e]; [|done].
  cbn [mbind result_bind to_string]. by rewrite repeat_then_cut.
Qed.

Lemma do_single_segment (cfg : settings) (s : jsstring) :
  startsWith_LF s = false → yatte_do cfg (VArr [VStr s]) [] = Ok s.
Proof.
  intros Hs. unfold yatte_do. by rewrite (do_arguments_verbatim cfg s).
Qed.

(** C8: without a body function the segments and values are rendered once
    by [yatte.do] and the string is repeated: [|n|] times for a number [n],
    once for a function, with the separator between the repetitions and not
    after the last; [yatte.loop(5, '-')`Hi!`] is ["Hi!-Hi!-Hi!-Hi!-Hi!"]. *)
Theorem loop_repeats_rendered_template {St : Type} (fuel : nat) (cfg : settings)
    (joinChar : option jsstring) (segments values : list value) (st : St) :
  (∀ n : Z,
     yatte_loop fuel cfg (AVal (VNum n)) joinChar (AVal (VArr segments)) values st
     = Some (s ← yatte_do cfg (VArr segments) values;
             Ok (join (default [LF] joinChar) (replicate (Z.abs_nat n) s), st)))
  ∧ (∀ predicate : jsfun St,
     yatte_loop fuel cfg (AFun predicate) joinChar (AVal (VArr segments)) values st
     = Some (s ← yatte_do cfg (VArr segments) values; Ok (s, st)))
  ∧ yatte_loop fuel cfg (AVal (VNum 5)) (Some (str "-")) (AVal (VArr [VStr (str "Hi!")])) [] st
    = Some (Ok (str "Hi!-Hi!-Hi!-Hi!-Hi!", st)).
Proof.
  split_and!.
  - intros n. apply loop_count_literal.
  - intros predicate. unfold yatte_loop, repeat_joined. cbn [classify].
    destruct (yatte_do cfg (VArr segments) values) as [s|e]; [|done].
    cbn [mbind result_bind to_string]. by rewrite (repeat_then_cut s _ 1).
  - by rewrite loop_count_literal, do_single_segment.
Qed.
Lemma is_true_other (c : value) : c ≠ VBool true → is_true c = false.
Proof. destruct c as [| |[]| | | |]; done. Qed.

Lemma while_true_run {St : Type} (object strings : jsfun St) (st st' : St) (rs : list value) :
  while_run object strings st rs st' →
  ∀ (fuel : nat) (mapped : list value),
    length rs < fuel →
    while_true fuel object strings mapped st = Some (Ok (mapped ++ rs, st')).
Proof.
  induction 1 as [st st1 c Hc Hne|st st1 st2 st3 r rs Hc Hr _ IH]; intros fuel mapped Hfuel.
  - destruct fuel as [|fuel]; [simpl in Hfuel; lia|].
    simpl. rewrite Hc, is_true_other by done. by rewrite app_nil_r.
  - destruct fuel as [|fuel]; [simpl in Hfuel; lia|].
    simpl. rewrite Hc. simpl. rewrite Hr, IH by (simpl in Hfuel; lia).
    by rewrite <- app_assoc.
Qed.

(** C10: with a function as the iterable and a function as the body, the
    body is called after each call of the predicate that returns exactly
    [true], and the loop ends at the first call that returns anything else;
    a predicate that returns the number 1 or a non-empty string makes no
    iteration at all. *)
Theorem predicate_loop_runs_while_true {St : Type} (cfg : settings)
    (joinChar : option jsstring) (object strings : jsfun St) (values : list value)
    (st st' : St) (rs : list value) :
  while_run object strings st rs st' →
  (∀ fuel : nat,
     length rs < fuel →
     yatte_loop fuel cfg (AFun object) joinChar (AFun strings) values st
     = Some (Ok (join_mapped (default [LF] joinChar) rs, st')))
  ∧ (∀ (fuel : nat) (c : value),
       c ≠ VBool true →
       yatte_loop (S fuel) cfg (AFun (pure_fun (fun _ => c))) joinChar (AFun strings) values st
       = Some (Ok ([], st)))
  ∧ (∀ fuel : nat,
       yatte_loop (S fuel) cfg (AFun (pure_fun (fun _ => VNum 1))) joinChar
         (AFun strings) values st
       = Some (Ok ([], st))
       ∧ yatte_loop (S fuel) cfg (AFun (pure_fun (fun _ => VStr (str "yes")))) joinChar
           (AFun strings) values st
         = Some (Ok ([], st))).
Proof.
  intros Hrun.
  assert (∀ (fuel : nat) (c : value),
       c ≠ VBool true →
       yatte_loop (S fuel) cfg (AFun (pure_fun (fun _ => c))) joinChar (AFun strings) values st
       = Some (Ok ([], st))) as Hstop.
  { intros fuel c Hc. unfold yatte_loop. cbn [classify].
    rewrite (while_true_run _ strings st st []); [done| |simpl; lia].
    by apply (run_stop _ _ st st c). }
  split_and!.
  - intros fuel Hfuel. unfold yatte_loop. cbn [classify].
    by rewrite (while_true_run object strings st st' rs Hrun).
  - exact Hstop.
  - intros fuel. split; by apply Hstop.
Qed.

Lemma below_two_or_one_run :
  while_run below_two_or_one this_is_count 0
    [VStr (str "This is 0"); VStr (str "This is 1")] 2.
Proof.
  apply (run_step _ _ 0 0 1 2 _ _ eq_refl eq_refl).
  apply (run_step _ _ 1 1 2 2 _ _ eq_refl eq_refl).
  apply (run_stop _ _ 2 2 (VNum 1) eq_refl). discriminate.
Defined.

Lemma predicate_loop_runs_while_true_witness :
  yatte_loop 3 (yatte_settings None) (AFun below_two_or_one) None (AFun this_is_count) [] 0
  = Some (Ok (str "This is 0" ++ nl "This is 1", 2)).
Proof.
  exact (proj1 (predicate_loop_runs_while_true (yatte_settings None) None
           below_two_or_one this_is_count [] 0 2 _ below_two_or_one_run) 3 (le_n 3)).
Defined.
(** ** Values in [dedent] *)

Lemma dedent_value_error (split : list jsstring) (pushed : list value) (v : value) (e : exn) :
  dedent_value split pushed v = Throw e → e = TypeError.
Proof.
  unfold dedent_value.
  destruct v as [| |b|n|[|c s]|[|x elems]|props]; simpl;
    repeat case_match; intros; by simplify_eq.
Qed.

(** A boolean or a number is pushed as it is. *)
Lemma dedent_value_primitive (split : list jsstring) (pushed : list value) (v : value) :
  (∃ b, v = VBool b) ∨ (∃ n, v = VNum n) →
  dedent_value split pushed v = Ok (pushed ++ [v]).
Proof. by intros [[b ->]|[n ->]]. Qed.

Lemma dedent_forEach_null (indent : Z) (values : list value) (texts : list value) :
  ∀ (j i : nat) (res : dedented),
    values !! (j + i) = Some VNull → i < length texts →
    dedent_forEach indent values j texts res = Throw TypeError.
Proof.
  induction texts as [|text rest IH]; intros j i res Hnull Hi; simpl in *; [lia|].
  destruct text as [| | | |t| |]; try done. simpl.
  destruct i as [|i].
  - rewrite Nat.add_0_r in Hnull. unfold index. by rewrite Hnull.
  - destruct (dedent_value (dedent_lines indent t) (result_values res) (index values j))
      as [vs|e] eqn:Hvs.
    + simpl. apply (IH (S j) i); [|lia]. by replace (S j + i) with (j + S i) by lia.
    + by apply dedent_value_error in Hvs as ->.
Qed.

(** The part of C9 about [null]: with indentation enabled and a first
    segment that begins with a line break, a [null] among the values that
    have a segment makes [yatte.do] throw. *)
Lemma render_null_throws (cfg : settings) (strings values : list value)
    (s0 : jsstring) (i : nat) :
  indentation (format cfg) = true →
  strings !! 0 = Some (VStr s0) → startsWith_LF s0 = true →
  values !! i = Some VNull → i < length strings →
  yatte_do cfg (VArr strings) values = Throw TypeError.
Proof.
  intros Hind H0 Hs0 Hnull Hi. unfold yatte_do, do_arguments, dedent, index.
  rewrite Hind, H0. simpl. rewrite Hs0.
  by rewrite (dedent_forEach_null _ values strings 0 i).
Qed.

(** C9, at the input where the code departs from it: an array whose first
    element is the line-break string (or an object with that string under
    the key 0) is taken for a string that starts with a line break, and the
    call of [split] on it throws; the claim has every value that is neither
    a string, [null] nor [undefined] pass.  An array with another first
    element, a number and a boolean do pass. *)
Theorem array_value_with_line_break_throws :
  yatte_do (yatte_settings None) (VArr [VStr (nl "  a "); VStr []]) [VArr [VStr [LF]]]
  = Throw TypeError
  ∧ yatte_do (yatte_settings None) (VArr [VStr (nl "  a "); VStr []])
      [VObj [(str "0", VStr [LF])]]
    = Throw TypeError
  ∧ yatte_do (yatte_settings None) (VArr [VStr (nl "  a "); VStr []]) [VArr [VStr (str "x")]]
    = Ok (nl "a x")
  ∧ yatte_do (yatte_settings None) (VArr [VStr (nl "  a "); VStr (str " "); VStr []])
      [VNum 7; VBool true]
    = Ok (nl "a 7 true")
  ∧ yatte_do (yatte_settings None) (VArr [VStr (nl "  a "); VStr []]) [VNull]
    = Throw TypeError.
Proof. split_and!; vm_compute; reflexivity. Qed.
(** * Further properties *)

(** ** Tokens *)

Lemma explicitTransformation_lastToken (cfg : settings) (s : jsstring) (v : value) :
  not_a_member cfg (lastToken s) →
  explicitTransformation cfg (VStr s) v = Ok (s ++ to_string v).
Proof.
  unfold not_a_member. intros Hnone. unfold explicitTransformation. simpl.
  fold (lastToken s). rewrite Hnone. by repeat case_match.
Qed.











(** ** Segments and values in [yatte.do] *)

Lemma reduce_values_shift (cfg : settings) (x : value) (strings values : list value) :
  ∀ (j : nat) (old : jsstring),
    reduce_values cfg (x :: strings) (S j) values old = reduce_values cfg strings j values old.
Proof.
  induction values as [|v values IH]; intros j old; [done|].
  simpl. change (index (x :: strings) (S j)) with (index strings j).
  destruct (explicitTransformation cfg (index strings j) v) as [piece|e]; [|done].
  simpl. apply IH.
Qed.

Lemma return_interleave (cfg : settings) (values : list value) :
  ∀ (segments : list jsstring) (old : jsstring),
    length segments = S (length values) →
    Forall (fun s => not_a_member cfg (lastToken s)) segments →
    (old' ← reduce_values cfg (VStr <$> segments) 0 values old;
     Ok (old' ++ to_string (index (VStr <$> segments) (length (VStr <$> segments) - 1))))
    = Ok (old ++ interleave segments values).
Proof.
  induction values as [|v values IH]; intros segments old Hlen Hreg.
  - destruct segments as [|s [|? ?]]; simplify_eq/=. done.
  - destruct segments as [|s segments]; [done|].
    injection Hlen as Hlen. inversion Hreg as [|? ? Hs Hrest]; subst.
    rewrite fmap_cons. cbn [reduce_values]. change (index (VStr s :: _) 0) with (VStr s).
    rewrite explicitTransformation_lastToken by done. cbn [mbind result_bind].
    rewrite reduce_values_shift.
    replace (index (VStr s :: (VStr <$> segments)) (length (VStr s :: (VStr <$> segments)) - 1))
      with (index (VStr <$> segments) (length (VStr <$> segments) - 1)).
    + rewrite (IH segments _ Hlen Hrest). cbn [interleave]. by rewrite <- !app_assoc.
    + rewrite length_cons, length_fmap, Hlen. simpl. by rewrite Nat.sub_0_r.
Qed.



(** X4: when more values than segments reach the [return] of [yatte.do],
    which happens for a first argument that is not an array and two or more
    values, the call throws. *)
Theorem more_values_than_segments_throws
    (cfg : settings) (strings : value) (values ss vs : list value) :
  do_arguments cfg strings values = Ok (ss, vs) →
  length ss < length vs →
  (∃ e, yatte_do cfg strings values = Throw e)
  ∧ (∀ (v x y : value) (rest : list value),
       (∀ l, v ≠ VArr l) → ∃ e, yatte_do cfg v (x :: y :: rest) = Throw e).
Proof.
  assert (∀ strings values ss vs,
            do_arguments cfg strings values = Ok (ss, vs) → length ss < length vs →
            ∃ e, yatte_do cfg strings values = Throw e) as Hthrow.
  { clear. intros strings values ss vs Hargs Hlen. unfold yatte_do. rewrite Hargs.
    cbn [mbind result_bind].
    destruct (lookup_lt_is_Some_2 vs (length ss) Hlen) as [v Hv].
    destruct (reduce_values_throws cfg ss vs 0 (length ss) [] v TypeError Hv) as [e He].
    - unfold index. simpl. by rewrite lookup_ge_None_2.
    - exists e. by rewrite He. }
  intros Hargs Hlen. split; [by eapply Hthrow|].
  intros v x y rest Hv. apply (Hthrow v (x :: y :: rest) [v] (x :: y :: rest)).
  - destruct v; try done. by destruct (Hv elems).
  - simpl. lia.
Qed.

Lemma more_values_than_segments_throws_witness :
  ∃ e, yatte_do (yatte_settings None) (VArr [VStr (str "a"); VStr (str "b")])
         [VNum 1; VNum 2; VNum 3] = Throw e.
Proof.
  exact (proj1 (more_values_than_segments_throws (yatte_settings None)
           (VArr [VStr (str "a"); VStr (str "b")]) [VNum 1; VNum 2; VNum 3]
           [VStr (str "a"); VStr (str "b")] [VNum 1; VNum 2; VNum 3] eq_refl
           (le_n 3))).
Defined.

(** ** Invariants of [dedent] *)

Lemma dedent_value_pushes (split : list jsstring) (pushed vs : list value) (v : value) :
  dedent_value split pushed v = Ok vs →
  (v = VUndef ∧ vs = pushed) ∨ (v ≠ VUndef ∧ ∃ x, vs = pushed ++ [x]).
Proof.
  unfold dedent_value. destruct v as [| |b|n|s|elems|props]; simpl;
    repeat case_match; intros; simplify_eq; eauto.
Qed.

Lemma index_defined (values : list value) (i : nat) :
  index values i ≠ VUndef → i < length values.
Proof.
  unfold index. intros Hi. apply lookup_lt_is_Some.
  destruct (values !! i); [eauto|done].
Qed.

Lemma dedent_forEach_lengths (indent : Z) (values : list value) (texts : list value) :
  ∀ (i : nat) (res r : dedented),
    dedent_forEach indent values i texts res = Ok r →
    length (result_strings r) = length (result_strings res) + length texts
    ∧ length (result_values r)
      ≤ length (result_values res) + Nat.min (length texts) (length values - i).
Proof.
  induction texts as [|text rest IH]; intros i res r Hr; simpl in Hr.
  - simplify_eq. simpl. lia.
  - apply bind_Ok in Hr as (t & Ht & Hr). apply bind_Ok in Hr as (vs & Hvs & Hr).
    apply IH in Hr as [Hs Hv]. cbn [result_strings result_values] in Hs, Hv.
    rewrite length_app in Hs. cbn [length] in *. split; [lia|].
    apply dedent_value_pushes in Hvs as [[_ ->]|[Hdef [x ->]]]; [lia|].
    apply index_defined in Hdef. rewrite length_app in Hv. cbn [length] in Hv. lia.
Qed.

(** X5: when [dedent] engages and returns, it returns as many strings as it
    was given, and never more values than strings nor more values than it
    was given. *)
Theorem dedent_keeps_segment_count
    (strings values : list value) (s0 : jsstring) (r : dedented) :
  strings !! 0 = Some (VStr s0) → startsWith_LF s0 = true →
  dedent strings values = Ok r →
  length (result_strings r) = length strings
  ∧ length (result_values r) ≤ length strings
  ∧ length (result_values r) ≤ length values.
Proof.
  intros H0 Hs0 Hr. unfold dedent, index in Hr. rewrite H0 in Hr. simpl in Hr.
  rewrite Hs0 in Hr. apply dedent_forEach_lengths in Hr as [Hs Hv]. simpl in *. lia.
Qed.

Lemma dedent_keeps_segment_count_witness :
  ∃ r, dedent [VStr (nl "  a"); VStr (nl "  b")] [VUndef; VNum 1; VNum 2] = Ok r
       ∧ length (result_strings r) = 2 ∧ length (result_values r) ≤ 2
       ∧ length (result_values r) ≤ 3.
Proof.
  eexists. split; [reflexivity|].
  exact (dedent_keeps_segment_count [VStr (nl "  a"); VStr (nl "  b")]
           [VUndef; VNum 1; VNum 2] (nl "  a") _ eq_refl eq_refl eq_refl).
Defined.

Lemma dedent_value_plain (split : list jsstring) (pushed : list value) (v : value) :
  plain_value v = true → dedent_value split pushed v = Ok (pushed ++ [v]).
Proof.
  destruct v as [| |b|n|[|c s]|elems|props]; try done.
  simpl. intros Hc%negb_true_iff. by rewrite Hc.
Qed.

Lemma dedent_value_plain_or_undefined (split : list jsstring) (pushed values : list value)
    (i : nat) :
  Forall (fun v => plain_value v || is_undefined v = true) values →
  dedent_value split pushed (index values i)
  = Ok (pushed ++ filter (fun v => is_undefined v = false) (take 1 (drop i values))).
Proof.
  intros Hvalues. unfold index. destruct (values !! i) as [v|] eqn:Hv.
  - rewrite (drop_S _ _ _ Hv). cbn [take default].
    assert (plain_value v || is_undefined v = true) as Hok.
    { rewrite Forall_forall in Hvalues. apply Hvalues. by eapply list_elem_of_lookup_2. }
    destruct (is_undefined v) eqn:Hu.
    + destruct v; try done. rewrite filter_cons_False by (simpl; congruence).
      simpl. by rewrite app_nil_r.
    + rewrite orb_false_r in Hok. rewrite dedent_value_plain by done.
      by rewrite filter_cons_True by done.
  - rewrite (drop_ge values i) by by apply lookup_ge_None.
    simpl. by rewrite app_nil_r.
Qed.

Lemma take_S_drop {A} (l : list A) (i n : nat) :
  take (S n) (drop i l) = take 1 (drop i l) ++ take n (drop (S i) l).
Proof.
  replace (S i) with (i + 1) by lia. rewrite <- drop_drop.
  destruct (drop i l); [|done]. simpl. by rewrite take_nil.
Qed.

Lemma dedent_forEach_cons (indent : Z) (values : list value) (i : nat) (t : jsstring)
    (rest : list value) (res : dedented) :
  dedent_forEach indent values i (VStr t :: rest) res
  = vs ← dedent_value (dedent_lines indent t) (result_values res) (index values i);
    dedent_forEach indent values (S i) rest
      {| result_strings := result_strings res ++ [VStr (join [LF] (dedent_lines indent t))];
         result_values := vs |}.
Proof. done. Qed.

Lemma dedent_forEach_plain (indent : Z) (values : list value) (texts : list jsstring) :
  Forall (fun v => plain_value v || is_undefined v = true) values →
  ∀ (i : nat) (res : dedented),
    ∃ r, dedent_forEach indent values i (VStr <$> texts) res = Ok r
         ∧ result_values r
           = result_values res
             ++ filter (fun v => is_undefined v = false) (take (length texts) (drop i values)).
Proof.
  intros Hvalues. induction texts as [|t texts IH]; intros i res.
  - exists res. split; [done|]. simpl. by rewrite app_nil_r.
  - rewrite fmap_cons, dedent_forEach_cons, dedent_value_plain_or_undefined by done.
    cbn [mbind result_bind].
    edestruct IH as (r & -> & Hr). exists r. split; [done|].
    cbn [length]. rewrite (take_S_drop values i (length texts)), filter_app, app_assoc.
    by rewrite Hr.
Qed.

(** X6: when [dedent] engages on string segments and every value is a
    boolean, a number, a string that does not begin with a line break, or
    [undefined], it returns: the values that have a segment are passed on as
    they are, in order, except the [undefined] ones, which are dropped. *)
Theorem dedent_forwards_plain_values
    (texts : list jsstring) (values : list value) (s0 : jsstring) :
  head texts = Some s0 → startsWith_LF s0 = true →
  Forall (fun v => plain_value v || is_undefined v = true) values →
  ∃ r, dedent (VStr <$> texts) values = Ok r
       ∧ result_values r
         = filter (fun v => is_undefined v = false) (take (length texts) values).
Proof.
  intros Hhead Hs0 Hvalues. unfold dedent, index.
  destruct texts as [|t texts]; simplify_eq/=. rewrite Hs0.
  destruct (dedent_forEach_plain (Z.of_nat (search_indent_end s0) - 1) values (s0 :: texts)
              Hvalues 0 {| result_strings := []; result_values := [] |}) as (r & Hr & Hv).
  exists r. split; [exact Hr|]. by rewrite Hv.
Qed.

Lemma dedent_forwards_plain_values_witness :
  ∃ r, dedent (VStr <$> [nl "  a"; nl "  b"; str "c"])
         [VStr (str "x"); VUndef; VNum 2; VBool true] = Ok r
       ∧ result_values r = [VStr (str "x"); VNum 2].
Proof.
  refine (dedent_forwards_plain_values [nl "  a"; nl "  b"; str "c"]
            [VStr (str "x"); VUndef; VNum 2; VBool true] (nl "  a") eq_refl eq_refl _).
  repeat constructor.
Defined.

Lemma dedent_lines_zero (text : jsstring) : dedent_lines 0 text = split_LF text.
Proof.
  rewrite (dedent_lines_strip 0). unfold strip_indent.
  destruct (split_LF text) as [|l ls]; [done|]. f_equal.
  induction ls as [|x ls IH]; [done|]. rewrite fmap_cons, IH. done.
Qed.

Lemma dedent_engaged (strings values : list value) (s0 : jsstring) :
  strings !! 0 = Some (VStr s0) → startsWith_LF s0 = true →
  dedent strings values
  = dedent_forEach (Z.of_nat (search_indent_end s0) - 1) values 0 strings
      {| result_strings := []; result_values := [] |}.
Proof. intros H0 Hs. unfold dedent, index. rewrite H0. simpl. by rewrite Hs. Qed.

(** X7: when the first segment is a line break followed at once by a
    character other than line break, space and tab (or by nothing), the base
    indentation is zero and [dedent] returns every segment as it was given. *)
Theorem dedent_without_base_indent_keeps_strings
    (strings values : list value) (rest : jsstring) (r : dedented) :
  strings !! 0 = Some (VStr (LF :: rest)) →
  is_indent_char <$> head rest ≠ Some true →
  dedent strings values = Ok r →
  result_strings r = strings.
Proof.
  intros H0 Hrest Hr. rewrite (dedent_engaged _ _ (LF :: rest)) in Hr by done.
  change (LF :: rest) with ([LF] ++ rest) in Hr.
  rewrite (search_indent_end_run [LF] rest) in Hr by (done || by repeat constructor).
  apply dedent_forEach_strings in Hr as (ts & -> & ->). cbn [result_strings app length].
  change (Z.of_nat 1 - 1)%Z with 0%Z.
  apply list_fmap_ext. intros _ t _. by rewrite dedent_lines_zero, join_split_LF.
Qed.

Lemma dedent_without_base_indent_keeps_strings_witness :
  ∃ r, dedent [VStr (nl "<ul>" ++ nl "  "); VStr (nl "</ul>")] [VNum 1] = Ok r
       ∧ result_strings r = [VStr (nl "<ul>" ++ nl "  "); VStr (nl "</ul>")].
Proof.
  eexists. split; [reflexivity|].
  refine (dedent_without_base_indent_keeps_strings
            [VStr (nl "<ul>" ++ nl "  "); VStr (nl "</ul>")] [VNum 1]
            (str "<ul>" ++ nl "  ") _ eq_refl _ eq_refl).
  discriminate.
Defined.

(** ** Nested renders in [dedent] *)

Lemma join_prefix (sep w l : jsstring) (ps : list jsstring) :
  join sep ((w ++ l) :: ps) = w ++ join sep (l :: ps).
Proof. destruct ps; simpl; by rewrite <- ?app_assoc. Qed.

(** X8: a value that is a string beginning with a line break is pushed
    without that line break, and with the whitespace that begins the last
    line of the (dedented) segment before it put in front of every line
    after its first: the first line continues the segment, the other lines
    are indented to the column of the interpolation. *)
Theorem nested_render_is_reindented
    (split : list jsstring) (pushed : list value) (l1 : jsstring) (ls : list jsstring) :
  Forall (fun x => LF ∉ x) (l1 :: ls) →
  let w := leading_ws (default [] (last split)) in
  dedent_value split pushed (VStr (join [LF] ([] :: l1 :: ls)))
  = Ok (pushed ++ [VStr (join [LF] (l1 :: ((fun l => w ++ l) <$> ls)))]).
Proof.
  intros Hlines w. unfold dedent_value. rewrite join_cons2.
  cbn [app get0 mbind result_bind is_LF_string as_string].
  change (Ascii.eqb LF LF) with true. cbv iota. do 3 f_equal.
  unfold reindent. rewrite substr_prefix. fold (leading_ws (default [] (last split))). fold w.
  change (LF :: join [LF] (l1 :: ls)) with (join [LF] ([] :: l1 :: ls)).
  rewrite split_LF_join by (constructor; [set_solver|done]).
  rewrite !fmap_cons, app_nil_r, join_cons2, join_prefix.
  replace (Z.of_nat (length w) * 2 + 1)%Z with (Z.of_nat (length (w ++ [LF] ++ w)))
    by (rewrite !length_app; simpl; lia).
  rewrite substr_from_nat.
  replace (w ++ [LF] ++ w ++ join [LF] (l1 :: ((fun s => w ++ s) <$> ls)))
    with ((w ++ [LF] ++ w) ++ join [LF] (l1 :: ((fun s => w ++ s) <$> ls)))
    by by rewrite <- !app_assoc.
  by rewrite drop_app_length.
Qed.

Lemma nested_render_is_reindented_witness :
  dedent_value [[]; str "1"; str "  "] [] (VStr (nl "2" ++ nl "  3"))
  = Ok [VStr (str "2" ++ nl "    3")].
Proof.
  refine (nested_render_is_reindented [[]; str "1"; str "  "] [] (str "2") [str "  3"] _).
  apply (bool_decide_unpack _). by vm_compute.
Defined.

(** ** More of [yatte.loop] *)

(** X9: with a number [n] and a body function, the body is called [|n|]
    times, with the index as both arguments, from 0 up, and the results are
    joined; the sign of the number does not matter, for a body and for a
    template alike, and the number 0 gives the empty string without a call. *)
Theorem count_loop_calls_body_with_index {St : Type} (fuel : nat) (cfg : settings)
    (joinChar : option jsstring) (body : jsfun St) (strings : jsarg St)
    (values : list value) (st : St) (n : Z) :
  yatte_loop fuel cfg (AVal (VNum n)) joinChar (AFun body) values st
  = joined_results joinChar (invoke_in_order body (count_pairs (Z.abs_nat n)) st)
  ∧ yatte_loop fuel cfg (AVal (VNum (- n))) joinChar strings values st
    = yatte_loop fuel cfg (AVal (VNum n)) joinChar strings values st
  ∧ yatte_loop fuel cfg (AVal (VNum 0)) joinChar (AFun body) values st = Some (Ok ([], st)).
Proof.
  split_and!.
  - apply loop_over_count.
  - unfold yatte_loop. cbn [classify].
    by replace (Z.abs_nat (- n)) with (Z.abs_nat n) by lia.
  - by rewrite loop_over_count.
Qed.

Lemma loop_literal_count {St : Type} (fuel : nat) (cfg : settings) (object : jsarg St)
    (joinChar : option jsstring) (strings : value) (values : list value) (st : St)
    (count : nat) (collection : list (value * value)) :
  classify object = Ok (count, collection) →
  yatte_loop fuel cfg object joinChar (AVal strings) values st
  = Some (s ← match strings with
              | VArr _ => yatte_do cfg strings values
              | _ => Ok (to_string strings)
              end;
          Ok (join (default [LF] joinChar) (replicate count s), st)).
Proof.
  intros Hclass. unfold yatte_loop, repeat_joined. rewrite Hclass.
  destruct strings as [| |b|n|s|segments|props];
    cbn [mbind result_bind to_string]; rewrite ?repeat_then_cut; try done.
  destruct (yatte_do cfg (VArr segments) values) as [s|e]; [|done].
  cbn [mbind result_bind to_string]. by rewrite repeat_then_cut.
Qed.

(** X10: without a body function, an array, an object or a string as the
    iterable repeats the rendered template once per element, property or
    character, and a template that is a plain string is repeated as it is,
    without a call of [yatte.do]. *)
Theorem literal_loop_repeats_per_key {St : Type} (fuel : nat) (cfg : settings)
    (joinChar : option jsstring) (segments values : list value) (st : St) :
  (∀ elems : list value,
     yatte_loop fuel cfg (AVal (VArr elems)) joinChar (AVal (VArr segments)) values st
     = Some (s ← yatte_do cfg (VArr segments) values;
             Ok (join (default [LF] joinChar) (replicate (length elems) s), st)))
  ∧ (∀ props : list (jsstring * value),
     yatte_loop fuel cfg (AVal (VObj props)) joinChar (AVal (VArr segments)) values st
     = Some (s ← yatte_do cfg (VArr segments) values;
             Ok (join (default [LF] joinChar) (replicate (length props) s), st)))
  ∧ (∀ chars : jsstring,
     yatte_loop fuel cfg (AVal (VStr chars)) joinChar (AVal (VArr segments)) values st
     = Some (s ← yatte_do cfg (VArr segments) values;
             Ok (join (default [LF] joinChar) (replicate (length chars) s), st)))
  ∧ (∀ (n : Z) (s : jsstring),
     yatte_loop fuel cfg (AVal (VNum n)) joinChar (AVal (VStr s)) values st
     = Some (Ok (join (default [LF] joinChar) (replicate (Z.abs_nat n) s), st))).
Proof.
  split_and!.
  - intros elems. erewrite loop_literal_count; [done|].
    cbn [classify key_value_pairs mbind result_bind]. by rewrite length_imap.
  - intros props. erewrite loop_literal_count; [done|].
    cbn [classify key_value_pairs mbind result_bind].
    by rewrite length_fmap, own_entries_length.
  - intros chars. erewrite loop_literal_count; [done|].
    cbn [classify key_value_pairs mbind result_bind]. by rewrite length_imap.
  - intros n s. by erewrite loop_literal_count.
Qed.

(** X11: [null] or [undefined] as the iterable makes the loop throw a
    [TypeError], with a body or with a template, before the body is called
    or the template rendered; a boolean gives the empty string. *)
Theorem loop_over_nothing {St : Type} (fuel : nat) (cfg : settings)
    (joinChar : option jsstring) (strings : jsarg St) (values : list value) (st : St) :
  yatte_loop fuel cfg (AVal VNull) joinChar strings values st = Some (Throw TypeError)
  ∧ yatte_loop fuel cfg (AVal VUndef) joinChar strings values st = Some (Throw TypeError)
  ∧ (∀ (b : bool) (body : jsfun St),
       yatte_loop fuel cfg (AVal (VBool b)) joinChar (AFun body) values st
       = Some (Ok ([], st))).
Proof. split_and!; done. Qed.

Lemma invoke_in_order_throws {St : Type} (body : jsfun St) (before after : list (value * value))
    (key x : value) (e : exn) :
  ∀ (st st1 : St) (rs : list value),
    invoke_in_order body before st = Ok (rs, st1) →
    body [x; key] st1 = Throw e →
    invoke_in_order body (before ++ (key, x) :: after) st = Throw e.
Proof.
  induction before as [|[k v] before IH]; intros st st1 rs Hbefore Hthrow; simpl in *.
  - simplify_eq. by rewrite Hthrow.
  - destruct (body [v; k] st) as [[r st']|e']; [|done].
    destruct (invoke_in_order body before st') as [[rs' st'']|e'] eqn:Hrest; [|done].
    simplify_eq. by rewrite (IH st' st1 rs').
Qed.

(** X12: when the body throws on an element of the array, after returning
    for the elements before it, the loop throws the same error: the results
    collected so far are not returned and the later elements are not
    visited. *)
Theorem body_error_aborts_loop {St : Type} (fuel : nat) (cfg : settings)
    (joinChar : option jsstring) (body : jsfun St) (values : list value)
    (before after : list value) (x : value) (st st1 : St) (rs : list value) (e : exn) :
  invoke_in_order body (array_pairs before) st = Ok (rs, st1) →
  body [x; VStr (num_to_string (Z.of_nat (length before)))] st1 = Throw e →
  yatte_loop fuel cfg (AVal (VArr (before ++ x :: after))) joinChar (AFun body) values st
  = Some (Throw e).
Proof.
  intros Hbefore Hthrow. rewrite loop_over_array. unfold array_pairs.
  rewrite imap_app, imap_cons. fold (array_pairs before).
  rewrite Nat.add_0_r.
  by rewrite (invoke_in_order_throws body _ _ _ _ e st st1 rs Hbefore Hthrow).
Qed.

Lemma body_error_aborts_loop_witness :
  yatte_loop 0 (yatte_settings None)
    (AVal (VArr [VStr (str "a"); VNum 5; VStr (str "b")])) None (AFun throw_numbers) [] tt
  = Some (Throw (Thrown (VNum 5))).
Proof.
  exact (body_error_aborts_loop 0 (yatte_settings None) None throw_numbers []
           [VStr (str "a")] [VStr (str "b")] (VNum 5) tt tt [VStr (str "a")]
           (Thrown (VNum 5)) eq_refl eq_refl).
Defined.

Lemma while_true_forever {St : Type} (object strings : jsfun St) :
  (∀ st, ∃ st', object [] st = Ok (VBool true, st')) →
  (∀ st, ∃ r st', strings [] st = Ok (r, st')) →
  ∀ (fuel : nat) (mapped : list value) (st : St),
    while_true fuel object strings mapped st = None.
Proof.
  intros Hobject Hstrings. induction fuel as [|fuel IH]; intros mapped st; [done|].
  simpl. destruct (Hobject st) as [st1 ->]. simpl.
  destruct (Hstrings st1) as (r & st2 & ->). apply IH.
Qed.

(** X13: a predicate that returns [true] at every call, with a body that
    never throws, makes a loop that does not return: whatever the fuel, the
    model runs out of it. *)
Theorem predicate_always_true_never_returns {St : Type} (cfg : settings)
    (joinChar : option jsstring) (object strings : jsfun St) (values : list value) :
  (∀ st, ∃ st', object [] st = Ok (VBool true, st')) →
  (∀ st, ∃ r st', strings [] st = Ok (r, st')) →
  ∀ (fuel : nat) (st : St),
    yatte_loop fuel cfg (AFun object) joinChar (AFun strings) values st = None.
Proof.
  intros Hobject Hstrings fuel st. unfold yatte_loop. cbn [classify].
  by rewrite while_true_forever.
Qed.

Lemma predicate_always_true_never_returns_witness :
  yatte_loop 1000 (yatte_settings None) (AFun always_true) None (AFun always_x) [] tt = None.
Proof.
  refine (predicate_always_true_never_returns (yatte_settings None) None
            always_true always_x [] _ _ 1000 tt).
  - intros st. by exists st.
  - intros st. by exists (VStr (str "x")), st.
Defined.

(** ** The default transformations *)

(** X14: with the default registry, the tokens [U], [L] and [T] before a
    value that is not a string make the transformation throw a [TypeError]:
    the value has no [toUpperCase], [toLowerCase] or [trim]. *)
Theorem case_tokens_need_strings (escape : option textarea) (pre tok : jsstring) (v : value) :
  token_start pre = true →
  tok ∈ [str "U"; str "L"; str "T"] →
  (∀ s, v ≠ VStr s) →
  explicitTransformation (yatte_settings escape) (VStr (pre ++ tok)) v = Throw TypeError.
Proof.
  intros Hpre Htok Hv.
  assert (∃ f, transform (format (yatte_settings escape)) !! tok = Some f
               ∧ f (functions (yatte_settings escape)) v = Throw TypeError
               ∧ is_token tok = true ∧ startsWith_backslash tok = false)
    as (f & Hf & Hthrow & Htoken & Hesc).
  { assert (as_string v = Throw TypeError) as Hs.
    { destruct v; try done. by destruct (Hv s). }
    repeat (apply elem_of_cons in Htok as [->|Htok]);
      [exists transform_U|exists transform_L|exists transform_T|by apply elem_of_nil in Htok];
      split_and!; try done.
    - unfold transform_U. by rewrite Hs.
    - unfold transform_L. by rewrite Hs.
    - unfold transform_T. by rewrite Hs. }
  rewrite (explicitTransformation_token _ pre tok f) by done. by rewrite Hthrow.
Qed.

Lemma case_tokens_need_strings_witness :
  explicitTransformation (yatte_settings None) (VStr (str "total: U")) (VNum 5)
  = Throw TypeError.
Proof.
  refine (case_tokens_need_strings None (str "total: ") (str "U") (VNum 5) eq_refl _ _).
  - apply list_elem_of_here.
  - discriminate.
Defined.




Lemma escaped_char_safe (c : ascii) :
  negb (Ascii.eqb c DQUOTE || Ascii.eqb c SQUOTE || Ascii.eqb c "&"%char
        || Ascii.eqb c "<"%char || Ascii.eqb c ">"%char || Ascii.eqb c "160"%char) = true →
  escaped_char c = [c].
Proof.
  rewrite negb_true_iff, !orb_false_iff. intros [[[[[H1 H2] H3] H4] H5] H6].
  unfold escaped_char. by rewrite H1, H2, H3, H4, H5, H6.
Qed.

(** X16: a string without [&], [<], [>], the two quote characters and the
    no-break space is returned as it is by the default escape function, and
    so a [$] token before it only removes the token. *)
Theorem escape_keeps_safe_strings (t : textarea) (pre s : jsstring) :
  html_safe s = true →
  default_escapeHTMLFunc (Some t) (VStr s) = Ok (VStr s)
  ∧ (token_start pre = true →
     explicitTransformation (yatte_settings (Some t)) (VStr (pre ++ str "$")) (VStr s)
     = Ok (pre ++ s)).
Proof.
  intros Hsafe.
  assert (mjoin (escaped_char <$> s) = s) as Hid.
  { induction s as [|c s IH]; [done|]. simpl in Hsafe.
    apply andb_prop in Hsafe as [Hc Hs]. rewrite fmap_cons. simpl.
    by rewrite (escaped_char_safe c Hc), IH. }
  split.
  - by rewrite default_escapeHTMLFunc_string, Hid.
  - intros Hpre.
    rewrite (explicitTransformation_token _ pre (str "$") transform_escape) by done.
    unfold transform_escape, yatte_settings. cbn [functions escapeHTMLFunc].
    by rewrite default_escapeHTMLFunc_string, Hid.
Qed.

Lemma escape_keeps_safe_strings_witness :
  default_escapeHTMLFunc (Some {| textContent := [] |}) (VStr (str "Joe Doe, 46"))
  = Ok (VStr (str "Joe Doe, 46")).
Proof.
  exact (proj1 (escape_keeps_safe_strings {| textContent := [] |} [] (str "Joe Doe, 46")
                  eq_refl)).
Defined.

(** ** More of [yatte.if] *)

Lemma pending_chain_selects (cfg : settings) (otherwise : list value)
    (branches : list (value * list value)) :
  (c ← chain_elseIfs cfg Pending branches; chain_else cfg c otherwise)
  = yatte_do_spread cfg (selected_branch branches otherwise).
Proof.
  induction branches as [|[condition args] rest IH]; [done|].
  cbn [chain_elseIfs selected_branch chain_elseIf]. unfold yatte_if.
  destruct (to_boolean condition).
  - destruct (yatte_do_spread cfg args) as [r|e]; [|done].
    cbn [mbind result_bind ifFallThrough]. by rewrite chain_elseIfs_resolved.
  - exact IH.
Qed.

(** X17: a chain [if]/[elseIf]*/[else] returns the render of the first
    branch whose condition is truthy, or of the [else] branch when there is
    none, and renders no other branch: when the chosen render throws the
    chain throws, and nothing else can make it throw. *)
Theorem chain_renders_first_truthy_branch (cfg : settings) (first : value * list value)
    (branches : list (value * list value)) (otherwise : list value) :
  run_chain cfg first branches otherwise
  = yatte_do_spread cfg (selected_branch (first :: branches) otherwise).
Proof.
  destruct first as [condition args]. unfold run_chain, yatte_if.
  cbn [fst snd selected_branch]. destruct (to_boolean condition).
  - destruct (yatte_do_spread cfg args) as [r|e]; [|done].
    cbn [mbind result_bind ifFallThrough]. by rewrite chain_elseIfs_resolved.
  - apply pending_chain_selects.
Qed.

(** ** Renders inside loops and indented renders *)

Lemma stripped_renders (ls : list jsstring) :
  ∀ g : nat → nat,
    join_elem <$> imap (fun i => strip_linebreak (S (g i))) ((fun l => VStr (LF :: l)) <$> ls)
    = ls.
Proof.
  induction ls as [|l ls IH]; intros g; [done|].
  rewrite fmap_cons, imap_cons, fmap_cons. f_equal. apply (IH (g ∘ S)).
Qed.

Lemma join_mapped_renders (sep r0 : jsstring) (ls : list jsstring) :
  join_mapped sep (VStr r0 :: ((fun l => VStr (LF :: l)) <$> ls))
  = join sep (r0 :: ls).
Proof.
  unfold join_mapped, array_join. rewrite imap_cons, fmap_cons.
  pose proof (stripped_renders ls id) as H. unfold id in H at 1.
  change (strip_linebreak ∘ S) with (fun i => strip_linebreak (S i)).
  by rewrite H.
Qed.

Lemma join_LF_concat (r0 : jsstring) (ls : list jsstring) :
  join [LF] (r0 :: ls) = r0 ++ mjoin ((fun l => LF :: l) <$> ls).
Proof.
  revert r0. induction ls as [|l ls IH]; intros r0.
  - simpl. by rewrite app_nil_r.
  - rewrite join_cons2, IH, fmap_cons. done.
Qed.

(** X18: when every result of the body after the first is a string that
    begins with a line break, as the indented renders of [yatte.do] are,
    the loop with the default separator returns the results one after the
    other, unchanged: the line break it takes off each is the one the join
    puts back. *)
Theorem loop_of_renders_concatenates {St : Type} (fuel : nat) (cfg : settings)
    (body : jsfun St) (values elems : list value) (st st' : St)
    (r0 : jsstring) (ls : list jsstring) :
  invoke_in_order body (array_pairs elems) st
  = Ok (VStr r0 :: ((fun l => VStr (LF :: l)) <$> ls), st') →
  yatte_loop fuel cfg (AVal (VArr elems)) None (AFun body) values st
  = Some (Ok (r0 ++ mjoin ((fun l => LF :: l) <$> ls), st')).
Proof.
  intros Hcalls. rewrite loop_over_array, Hcalls. cbn [joined_results default].
  by rewrite join_mapped_renders, join_LF_concat.
Qed.

Lemma loop_of_renders_concatenates_witness :
  yatte_loop 0 (yatte_settings None) (AVal (VArr [VStr (str "a"); VStr (str "b")])) None
    (AFun (pure_fun list_item)) [] tt
  = Some (Ok (nl "  <li>a" ++ nl "  <li>b", tt)).
Proof.
  exact (loop_of_renders_concatenates 0 (yatte_settings None) (pure_fun list_item) []
           [VStr (str "a"); VStr (str "b")] tt tt (nl "  <li>a") [str "  <li>b"] eq_refl).
Defined.

(** X19: a string as the iterable is looped over character by character:
    the body is called with each character and its index. *)
Theorem loop_over_string_visits_characters {St : Type} (fuel : nat) (cfg : settings)
    (joinChar : option jsstring) (body : jsfun St) (values : list value) (st : St)
    (chars : jsstring) :
  yatte_loop fuel cfg (AVal (VStr chars)) joinChar (AFun body) values st
  = joined_results joinChar
      (invoke_in_order body (array_pairs ((fun c => VStr [c]) <$> chars)) st).
Proof.
  unfold yatte_loop. cbn [classify key_value_pairs mbind result_bind].
  rewrite call_each_in_order. unfold array_pairs. rewrite imap_fmap.
  by destruct (invoke_in_order body _ st) as [[rs st']|e].
Qed.

Lemma VStr_inj : Inj (=) (=) VStr.
Proof. by intros s1 s2 [= ->]. Qed.

Lemma filter_plain_values (values : list value) :
  Forall (fun v => plain_value v = true) values →
  filter (fun v => is_undefined v = false) values = values.
Proof.
  induction 1 as [|v values Hv _ IH]; [done|].
  rewrite filter_cons_True by by destruct v. by rewrite IH.
Qed.

Lemma dedent_plain_result (texts : list jsstring) (values : list value) (s0 : jsstring) :
  head texts = Some s0 → startsWith_LF s0 = true →
  Forall (fun v => plain_value v = true) values →
  ∃ r, dedent (VStr <$> texts) values = Ok r
       ∧ result_values r = take (length texts) values.
Proof.
  intros Hhead Hs0 Hvalues.
  assert ((VStr <$> texts) !! 0 = Some (VStr s0)) as H0.
  { destruct texts; by simplify_eq/=. }
  rewrite (dedent_engaged _ _ s0) by done.
  destruct (dedent_forEach_plain (Z.of_nat (search_indent_end s0) - 1) values texts)
    with (i := 0) (res := {| result_strings := []; result_values := [] |})
    as (r & Hr & Hv).
  { eapply Forall_impl; [exact Hvalues|]. by intros v ->. }
  exists r. split; [exact Hr|]. rewrite Hv. cbn [result_values app drop].
  apply filter_plain_values. by apply Forall_take.
Qed.

(** X20: with indentation enabled, a first segment that begins with a line
    break, [n + 1] segments and [n] values that are booleans, safe integers
    or strings not beginning with a line break, and no segment whose last
    token, once dedented, is a key of the registry or a name that the
    registry object inherits, [yatte.do] returns the dedented segments and
    the string forms of the values in turn. *)
Theorem indented_render_interleaves_dedented_segments
    (cfg : settings) (texts : list jsstring) (values : list value) (s0 : jsstring) :
  indentation (format cfg) = true →
  head texts = Some s0 → startsWith_LF s0 = true →
  length texts = S (length values) →
  Forall (fun v => plain_value v = true) values →
  Forall (fun v => safe_value v = true) values →
  Forall (fun t => not_a_member cfg (lastToken (dedent_text (base_indent s0) t))) texts →
  yatte_do cfg (VArr (VStr <$> texts)) values
  = Ok (interleave (dedent_text (base_indent s0) <$> texts) values).
Proof.
  intros Hind Hhead Hs0 Hlen Hplain _ Hreg.
  assert ((VStr <$> texts) !! 0 = Some (VStr s0)) as H0.
  { destruct texts; by simplify_eq/=. }
  destruct (dedent_plain_result texts values s0 Hhead Hs0 Hplain) as (r & Hr & Hv).
  pose proof Hr as Hstrings. rewrite (dedent_engaged _ _ s0) in Hstrings by done.
  apply dedent_forEach_strings in Hstrings as (ts & Hts & Hrs).
  apply (list_fmap_eq_inj VStr VStr_inj) in Hts as <-.
  unfold yatte_do, do_arguments. rewrite Hind, Hr. cbn [mbind result_bind].
  rewrite Hrs, Hv. cbn [result_strings app].
  rewrite take_ge by lia.
  replace ((fun t => VStr (join [LF] (dedent_lines (Z.of_nat (search_indent_end s0) - 1) t)))
             <$> texts)
    with (VStr <$> (dedent_text (base_indent s0) <$> texts))
    by by rewrite <- list_fmap_compose.
  apply (return_interleave cfg values (dedent_text (base_indent s0) <$> texts) []).
  - by rewrite length_fmap.
  - by apply Forall_fmap.
Qed.

Lemma indented_render_interleaves_dedented_segments_witness :
  yatte_do (yatte_settings None)
    (VArr (VStr <$> [nl "  <p>" ++ nl "    "; nl "  </p>"])) [VStr (str "hi")]
  = Ok (nl "<p>" ++ nl "  hi" ++ nl "</p>").
Proof.
  refine (indented_render_interleaves_dedented_segments (yatte_settings None)
            [nl "  <p>" ++ nl "    "; nl "  </p>"] [VStr (str "hi")] (nl "  <p>" ++ nl "    ")
            eq_refl eq_refl eq_refl eq_refl _ _ _).
  - repeat constructor.
  - repeat constructor.
  - repeat constructor.
Defined.

(** ** [removeES6Export] *)

Lemma starts_with_app (pat b : jsstring) : starts_with pat (pat ++ b) = true.
Proof.
  induction pat as [|p pat IH]; [done|]. simpl.
  by rewrite IH, (proj2 (Ascii.eqb_eq p p) eq_refl).
Qed.

Lemma replace_literal_skip (pat rep x b : jsstring) :
  replace_literal pat rep (length x) (x ++ b) = replace_literal pat rep 0 b.
Proof. induction x as [|c x IH]; [by destruct b|]. exact IH. Qed.

Lemma replace_literal_match (p : ascii) (pat rep b : jsstring) :
  replace_literal (p :: pat) rep 0 ((p :: pat) ++ b)
  = rep ++ replace_literal (p :: pat) rep 0 b.
Proof.
  change (replace_literal (p :: pat) rep 0 ((p :: pat) ++ b))
    with (if starts_with (p :: pat) ((p :: pat) ++ b)
          then rep ++ replace_literal (p :: pat) rep (length (p :: pat) - 1) (pat ++ b)
          else p :: replace_literal (p :: pat) rep 0 (pat ++ b)).
  rewrite starts_with_app.
  replace (length (p :: pat) - 1) with (length pat) by (simpl; lia).
  by rewrite replace_literal_skip.
Qed.

Lemma replace_literal_before (pat rep a rest : jsstring) :
  (∀ i, i < length a → starts_with pat (drop i (a ++ rest)) = false) →
  replace_literal pat rep 0 (a ++ rest) = a ++ replace_literal pat rep 0 rest.
Proof.
  induction a as [|c a IH]; intros Hno; [done|].
  pose proof (Hno 0 ltac:(simpl; lia)) as H0.
  change (drop 0 ((c :: a) ++ rest)) with (c :: (a ++ rest)) in H0.
  change ((c :: a) ++ rest) with (c :: (a ++ rest)). cbn [replace_literal].
  rewrite H0. cbn [app]. f_equal. apply IH. intros i Hi. apply (Hno (S i)). simpl. lia.
Qed.

(** X21: [removeES6Export] copies the content up to the first place where
    the phrase [export default] begins, writes [window.yatte =] for the
    phrase and goes on after it; a content without the phrase is returned
    as it is. *)
Theorem removeES6Export_replaces_first_phrase (a b : jsstring) :
  (∀ i, i < length a → starts_with export_default (drop i (a ++ export_default ++ b)) = false) →
  removeES6Export (a ++ export_default ++ b) = a ++ window_yatte ++ removeES6Export b
  ∧ ((∀ i, i < length b → starts_with export_default (drop i b) = false) →
     removeES6Export b = b).
Proof.
  intros Hno. unfold removeES6Export. split.
  - rewrite replace_literal_before by exact Hno. f_equal.
    all: apply (replace_literal_match "e"%char).
  - intros Hb. rewrite <- (app_nil_r b) at 1.
    rewrite replace_literal_before; [by rewrite app_nil_r|].
    intros i Hi. rewrite app_nil_r. by apply Hb.
Qed.

Lemma removeES6Export_replaces_first_phrase_witness :
  removeES6Export (str "// main" ++ nl "export default yatte;")
  = str "// main" ++ nl "window.yatte = yatte;".
Proof.
  assert (∀ i, i < length (str "// main" ++ [LF]) →
               starts_with export_default
                 (drop i ((str "// main" ++ [LF]) ++ export_default ++ str " yatte;")) = false)
    as Hno.
  { intros i Hi. do 8 (destruct i as [|i]; [reflexivity|]). simpl in Hi. lia. }
  assert (∀ i, i < length (str " yatte;") →
               starts_with export_default (drop i (str " yatte;")) = false) as Hb.
  { intros i Hi. do 7 (destruct i as [|i]; [reflexivity|]). simpl in Hi. lia. }
  destruct (removeES6Export_replaces_first_phrase (str "// main" ++ [LF]) (str " yatte;") Hno)
    as [H1 H2].
  rewrite (H2 Hb) in H1. exact H1.
Defined.

(** ** A token at any interpolation point *)

Lemma reduce_values_app (cfg : settings) (strings vs1 vs2 : list value) :
  ∀ (j : nat) (old : jsstring),
    reduce_values cfg strings j (vs1 ++ vs2) old
    = old' ← reduce_values cfg strings j vs1 old;
      reduce_values cfg strings (j + length vs1) vs2 old'.
Proof.
  induction vs1 as [|v vs1 IH]; intros j old.
  - simpl. by rewrite Nat.add_0_r.
  - simpl. destruct (explicitTransformation cfg (index strings j) v) as [piece|e]; [|done].
    simpl. rewrite IH. by replace (S j + length vs1) with (j + S (length vs1)) by lia.
Qed.

(** X22: at every interpolation point that reaches the [return] of
    [yatte.do] (after [dedent], when it engages), a segment that ends in a
    registered token, not escaped, loses the token and the value is replaced
    by what the registered function returns for it: the render is the
    reduction of the values before the point, then the segment without its
    token and the string form of the transformed value, then the reduction
    of the values after the point and the last segment. *)
Theorem registered_token_at_any_point
    (cfg : settings) (strings : value) (values ss vs : list value) (i : nat)
    (pre tok : jsstring) (f : settings_functions → value → result value) (v : value) :
  do_arguments cfg strings values = Ok (ss, vs) →
  ss !! i = Some (VStr (pre ++ tok)) →
  vs !! i = Some v →
  token_start pre = true → is_token tok = true →
  startsWith_backslash tok = false →
  transform (format cfg) !! tok = Some f →
  yatte_do cfg strings values
  = (old ← reduce_values cfg ss 0 (take i vs) [];
     v' ← f (functions cfg) v;
     rest ← reduce_values cfg ss (S i) (drop (S i) vs) (old ++ pre ++ to_string v');
     Ok (rest ++ to_string (index ss (length ss - 1)))).
Proof.
  intros Hargs Hs Hv Hpre Htok Hesc Hf. unfold yatte_do. rewrite Hargs.
  cbn [mbind result_bind].
  rewrite <- (take_drop_middle vs i v Hv) at 1. rewrite reduce_values_app.
  rewrite length_take_le by (apply lookup_lt_Some in Hv; lia).
  change (0 + i) with i.
  destruct (reduce_values cfg ss 0 (take i vs) []) as [old|e]; [|done].
  cbn [mbind result_bind reduce_values].
  assert (index ss i = VStr (pre ++ tok)) as -> by (unfold index; by rewrite Hs).
  rewrite (explicitTransformation_token cfg pre tok f v) by done.
  destruct (f (functions cfg) v) as [v'|e]; [|done].
  cbn [mbind result_bind]. done.
Qed.

Lemma registered_token_at_any_point_witness :
  yatte_do (yatte_settings None)
    (VArr [VStr (nl "  <b>" ++ nl "    U"); VStr (str " and L"); VStr (nl "  </b>")])
    [VStr (str "x"); VStr (str "Y")]
  = Ok (nl "<b>" ++ nl "  X and y" ++ nl "</b>").
Proof.
  refine (eq_trans
            (registered_token_at_any_point (yatte_settings None)
               (VArr [VStr (nl "  <b>" ++ nl "    U"); VStr (str " and L"); VStr (nl "  </b>")])
               [VStr (str "x"); VStr (str "Y")]
               [VStr (nl "<b>" ++ nl "  U"); VStr (str " and L"); VStr (nl "</b>")]
               [VStr (str "x"); VStr (str "Y")] 1 (str " and ") (str "L") transform_L
               (VStr (str "Y")) eq_refl eq_refl eq_refl eq_refl eq_refl eq_refl eq_refl) _).
  vm_compute. reflexivity.
Defined.
